(** * sanitize-svc: the regex based PII detection and rewriting engine

    Shallow embedding of [services/sanitize-svc/app/main_simple.py]:
    the pattern table [PATTERNS], [find_entities], [apply_sanitization] and
    the two endpoints [sanitize_preview] and [sanitize_apply], together with
    the parts of Python they rely on (string slicing, [str * int], the stable
    [sorted]/[list.sort], and [re.finditer] for the constructs that occur in
    the seven registered patterns).

    Texts are Python [str] values whose code points lie in U+0000..U+00FF,
    one [ascii] per code point; offsets are Python [int]s, kept in [Z]. *)

From Stdlib Require Import Ascii String.
From Stdlib Require Import List ZArith Lia Bool Sorted Permutation.
From Stdlib Require Import PrimFloat.
From Stdlib Require Import DecimalString.
Import ListNotations.

Set Implicit Arguments.

(* ================================================================== *)
(** ** Python strings *)
(* ================================================================== *)

Module Py.

(** A Python [str]: a finite sequence of code points. *)
Definition str := list ascii.

(** String literals of the source, written as Rocq string literals. *)
Definition lit (s : string) : str := list_ascii_of_string s.

Fixpoint str_eqb (a b : str) : bool :=
  match a, b with
  | [], [] => true
  | x :: a', y :: b' => Ascii.eqb x y && str_eqb a' b'
  | _, _ => false
  end.

(** [k in l] for a list of strings. *)
Definition mem (k : str) (l : list str) : bool := existsb (str_eqb k) l.

(** Where a slice bound [i] lands in a sequence of length [len]: a negative
    bound counts from the end, and every bound is clamped to [0..len]. *)
Definition slice_index (len i : Z) : nat :=
  Z.to_nat (if (i <? 0)%Z then Z.max 0 (len + i) else Z.min i len).

Definition len (s : str) : Z := Z.of_nat (length s).

(** [s[:i]] *)
Definition slice_to (s : str) (i : Z) : str :=
  firstn (slice_index (len s) i) s.

(** [s[i:]] *)
Definition slice_from (s : str) (i : Z) : str :=
  skipn (slice_index (len s) i) s.

(** [s[i:j]] *)
Definition slice (s : str) (i j : Z) : str :=
  let i' := slice_index (len s) i in
  let j' := slice_index (len s) j in
  firstn (j' - i') (skipn i' s).

(** [s * n]: [n] copies of [s], none when [n <= 0]. *)
Definition mul (s : str) (n : Z) : str := concat (repeat s (Z.to_nat n)).

(** Python's sort is stable: elements with equal keys keep their relative
    order, also with [reverse=True].  A stable sort is determined by that
    property, so insertion from the right stands for it. *)
Section StableSort.
Variable A : Type.
Variable key : A -> Z.

(** The order the keys induce. *)
Definition le_key (a b : A) : Prop := (key a <= key b)%Z.

Fixpoint insert_asc (x : A) (l : list A) : list A :=
  match l with
  | [] => [x]
  | y :: l' => if (key x <=? key y)%Z then x :: l else y :: insert_asc x l'
  end.

(** [sorted(l, key=key)] and [l.sort(key=key)] *)
Definition sorted (l : list A) : list A := fold_right insert_asc [] l.

Fixpoint insert_desc (x : A) (l : list A) : list A :=
  match l with
  | [] => [x]
  | y :: l' => if (key y <=? key x)%Z then x :: l else y :: insert_desc x l'
  end.

(** [sorted(l, key=key, reverse=True)] *)
Definition sorted_reverse (l : list A) : list A := fold_right insert_desc [] l.

End StableSort.

End Py.

Import Py.

(* ================================================================== *)
(** ** The fragment of [re] used by the registered patterns *)
(* ================================================================== *)

Module Re.

(** Members of a bracketed character set; [\d] and [\s] also occur bare. *)
Inductive cset : Type :=
| Chr (c : ascii)
| Range (lo hi : ascii)
| Digit
| Space.

(** A compiled pattern is a sequence of nodes: the zero-width [\b], or a
    greedy repetition [{lo,hi}] of one character set ([hi = None] is an open
    upper bound).  A literal is a set of one character repeated once. *)
Inductive node : Type :=
| WordBoundary
| Repeat (lo : nat) (hi : option nat) (cls : list cset).

Definition pattern := list node.

Definition Lit (c : ascii) : node := Repeat 1 (Some 1) [Chr c].
Definition Exactly (n : nat) (cls : list cset) : node := Repeat n (Some n) cls.
Definition Optional (cls : list cset) : node := Repeat 0 (Some 1) cls.
Definition AtLeast (n : nat) (cls : list cset) : node := Repeat n None cls.

Definition code (c : ascii) : nat := nat_of_ascii c.

Definition between (lo hi c : ascii) : bool :=
  (code lo <=? code c) && (code c <=? code hi).

(** Case folding as [IGNORECASE] needs it for the registered patterns, which
    name ASCII characters only: no other code point below U+0100 folds to
    an ASCII letter, so folding the ASCII letters decides every test. *)
Definition lower (c : ascii) : ascii :=
  if between "A" "Z" c then ascii_of_nat (code c + 32) else c.

Definition upper (c : ascii) : ascii :=
  if between "a" "z" c then ascii_of_nat (code c - 32) else c.

(** [\d]: the decimal digits; below U+0100 these are [0-9]. *)
Definition is_digit (c : ascii) : bool := between "0" "9" c.

(** [\s]: Unicode white space below U+0100. *)
Definition is_space (c : ascii) : bool :=
  let n := code c in
  ((9 <=? n) && (n <=? 13)) || ((28 <=? n) && (n <=? 32))
  || (n =? 133) || (n =? 160).

(** [\w]: alphanumeric code points and the underscore; below U+0100 the
    alphanumerics are the ASCII ones, the Latin-1 letters and the Latin-1
    superscript digits and fractions. *)
Definition is_word (c : ascii) : bool :=
  let n := code c in
  between "a" "z" c || between "A" "Z" c || between "0" "9" c || (n =? 95)
  || (n =? 170) || (n =? 181) || (n =? 186)
  || ((192 <=? n) && (n <=? 214)) || ((216 <=? n) && (n <=? 246))
  || (248 <=? n)
  || (n =? 178) || (n =? 179) || (n =? 185)
  || ((188 <=? n) && (n <=? 190)).

(** One member of a set against one character; [ic] is [re.IGNORECASE]. *)
Definition in_cset (ic : bool) (m : cset) (c : ascii) : bool :=
  match m with
  | Chr x =>
      Ascii.eqb x c || (ic && Ascii.eqb (lower x) (lower c))
  | Range lo hi =>
      between lo hi c
      || (ic && (between lo hi (lower c) || between lo hi (upper c)))
  | Digit => is_digit c
  | Space => is_space c
  end.

Definition in_class (ic : bool) (cls : list cset) (c : ascii) : bool :=
  existsb (fun m => in_cset ic m c) cls.

Definition word_at (s : str) (i : nat) : bool :=
  match nth_error s i with
  | Some c => is_word c
  | None => false
  end.

(** [\b] at [pos]: exactly one side is a word character. *)
Definition at_boundary (s : str) (pos : nat) : bool :=
  xorb (match pos with 0 => false | S p => word_at s p end) (word_at s pos).

(** How many leading characters of [s] lie in [cls], at most [cap]. *)
Fixpoint run (ic : bool) (cls : list cset) (cap : option nat) (s : str) : nat :=
  match s with
  | [] => 0
  | c :: s' =>
      match cap with
      | Some 0 => 0
      | _ =>
          if in_class ic cls c
          then S (run ic cls (option_map pred cap) s')
          else 0
      end
  end.

(** The loop of a greedy repetition: try the continuation [k] after [n]
    repeated characters, then after [n - 1], ..., never fewer than [lo]. *)
Fixpoint backtrack (k : nat -> option nat) (lo n : nat) : option nat :=
  if n <? lo then None
  else match k n with
       | Some e => Some e
       | None => match n with
                 | 0 => None
                 | S n' => backtrack k lo n'
                 end
       end.

(** Backtracking match of [p] in [s] at [pos]; the result is the end of the
    match.  A repetition first takes as many characters as it can and gives
    them back one at a time until the rest of the pattern matches. *)
Fixpoint match_at (ic : bool) (p : pattern) (s : str) (pos : nat)
  {struct p} : option nat :=
  match p with
  | [] => Some pos
  | WordBoundary :: rest =>
      if at_boundary s pos then match_at ic rest s pos else None
  | Repeat lo hi cls :: rest =>
      backtrack (fun n => match_at ic rest s (pos + n)) lo
                (run ic cls hi (skipn pos s))
  end.

(** The fewest characters a match of [p] spans. *)
Fixpoint min_len (p : pattern) : nat :=
  match p with
  | [] => 0
  | WordBoundary :: rest => min_len rest
  | Repeat lo _ _ :: rest => lo + min_len rest
  end.

(** The scan of [finditer]: leftmost match from [pos], then on from its end.
    After an empty match the scan moves one character on.  [fuel] bounds the
    number of positions tried. *)
Fixpoint scan (fuel : nat) (ic : bool) (p : pattern) (s : str) (pos : nat)
  : list (nat * nat) :=
  match fuel with
  | 0 => []
  | S fuel' =>
      if length s <? pos then []
      else match match_at ic p s pos with
           | Some e =>
               (pos, e) :: scan fuel' ic p s (if pos <? e then e else S pos)
           | None => scan fuel' ic p s (S pos)
           end
  end.

(** [re.finditer(p, s, flags)] as the list of [(m.start(), m.end())]; the
    positions [0..len(s)] are [len(s) + 1] many. *)
Definition finditer (p : pattern) (s : str) (ic : bool) : list (nat * nat) :=
  scan (S (length s)) ic p s 0.

End Re.

(* ================================================================== *)
(** ** main_simple.py *)
(* ================================================================== *)

(** Errors the service raises: [HTTPException(status_code, detail)]. *)
Inductive exn : Type :=
| HTTPException (status_code : Z) (detail : str).

(** A call either returns a value or raises. *)
Inductive outcome (A : Type) : Type :=
| Returned (a : A)
| Raised (e : exn).

Arguments Raised {A} e.

Record User : Type := { email : str; roles : list str }.

(** [any(r in user.roles for r in required)] *)
Definition has_role (required : list str) (user : User) : bool :=
  existsb (fun r => mem r (roles user)) required.

(** The [checker] that [require_roles] builds for the role names
    [required], applied to the user the bearer token was decoded to. *)
Definition require_roles (required : list str) (user : User) : outcome User :=
  if negb (has_role required user)
  then Raised (HTTPException 403 (lit "Insufficient role"))
  else Returned user.

Import Re.
Local Open Scope char_scope.

Definition alnum : list cset := [Range "A" "Z"; Range "a" "z"; Range "0" "9"].

(** The pattern table, in the dictionary's insertion order. *)
Definition PATTERNS : list (str * pattern) :=
  [ (* \b[A-Za-z0-9._%+-]+@[A-Za-z0-9.-]+\.[A-Z|a-z]{2,}\b *)
    (lit "EMAIL",
     [ WordBoundary;
       AtLeast 1 (alnum ++ [Chr "."; Chr "_"; Chr "%"; Chr "+"; Chr "-"]);
       Lit "@";
       AtLeast 1 (alnum ++ [Chr "."; Chr "-"]);
       Lit ".";
       AtLeast 2 [Range "A" "Z"; Chr "|"; Range "a" "z"];
       WordBoundary ]);
    (* \b\d{3}[-.]?\d{3}[-.]?\d{4}\b *)
    (lit "PHONE",
     [ WordBoundary;
       Exactly 3 [Digit]; Optional [Chr "-"; Chr "."];
       Exactly 3 [Digit]; Optional [Chr "-"; Chr "."];
       Exactly 4 [Digit];
       WordBoundary ]);
    (* \b\d{3}-\d{2}-\d{4}\b *)
    (lit "SSN",
     [ WordBoundary;
       Exactly 3 [Digit]; Lit "-"; Exactly 2 [Digit]; Lit "-";
       Exactly 4 [Digit];
       WordBoundary ]);
    (* \b\d{4}[-\s]?\d{4}[-\s]?\d{4}[-\s]?\d{4}\b *)
    (lit "CREDIT_CARD",
     [ WordBoundary;
       Exactly 4 [Digit]; Optional [Chr "-"; Space];
       Exactly 4 [Digit]; Optional [Chr "-"; Space];
       Exactly 4 [Digit]; Optional [Chr "-"; Space];
       Exactly 4 [Digit];
       WordBoundary ]);
    (* \b\d{8}[A-HJ-NP-TV-Z]\b *)
    (lit "DNI_ES",
     [ WordBoundary;
       Exactly 8 [Digit];
       Exactly 1 [Range "A" "H"; Range "J" "N"; Range "P" "T"; Range "V" "Z"];
       WordBoundary ]);
    (* \bES\d{2}[0-9A-Z]{20}\b *)
    (lit "IBAN_ES",
     [ WordBoundary;
       Lit "E"; Lit "S"; Exactly 2 [Digit];
       Exactly 20 [Range "0" "9"; Range "A" "Z"];
       WordBoundary ]);
    (* \bsk-[A-Za-z0-9]{10,}\b *)
    (lit "OPENAI_KEY",
     [ WordBoundary;
       Lit "s"; Lit "k"; Lit "-";
       AtLeast 10 alnum;
       WordBoundary ]) ].

Local Close Scope char_scope.

Record EntityHit : Type := {
  entity_type : str;
  start : Z;
  end_ : Z;
  score : float;
  text : str
}.

Record PreviewRequest : Type := {
  req_text : str;
  language : str;
  req_entities : option (list str);
  operator : str;
  mask_char : str;
  mask_len : Z
}.

Record PreviewResponse : Type := {
  redacted_text : str;
  entities : list EntityHit;
  diff : option (list str)
}.

Record ApplyResponse : Type := {
  sanitized_text : str;
  entities_applied : list EntityHit
}.

(** The literal [0.95]: the binary64 value nearest to it. *)
Definition score_0_95 : float := 0x1.e666666666666p-1%float.

(** [not allowed_entities]: true for [None] and for the empty list. *)
Definition falsy (allowed_entities : option (list str)) : bool :=
  match allowed_entities with
  | None => true
  | Some [] => true
  | Some (_ :: _) => false
  end.

(** The dictionary the loop of [find_entities] runs over. *)
Definition active_patterns (allowed_entities : option (list str))
  : list (str * pattern) :=
  if falsy allowed_entities then PATTERNS
  else filter (fun kv => mem (fst kv)
                             (match allowed_entities with
                              | Some l => l
                              | None => []
                              end))
              PATTERNS.

(** The hits of one pattern, in the order [finditer] yields them. *)
Definition hits_of (txt : str) (kv : str * pattern) : list EntityHit :=
  map (fun m =>
         {| entity_type := fst kv;
            start := Z.of_nat (fst m);
            end_ := Z.of_nat (snd m);
            score := score_0_95;
            text := slice txt (Z.of_nat (fst m)) (Z.of_nat (snd m)) |})
      (finditer (snd kv) txt true).

(** The list [entities] before it is sorted. *)
Definition candidates (txt : str) (patterns : list (str * pattern))
  : list EntityHit :=
  flat_map (hits_of txt) patterns.

Definition find_entities (txt : str) (allowed_entities : option (list str))
  : list EntityHit :=
  Py.sorted start (candidates txt (active_patterns allowed_entities)).

Definition replacement (operator mask_char : str) (mask_len : Z)
  (entity : EntityHit) : str :=
  if str_eqb operator (lit "mask")
  then mul mask_char mask_len
  else lit "<" ++ entity_type entity ++ lit ">".

(** One turn of the loop of [apply_sanitization]. *)
Definition rewrite_one (operator mask_char : str) (mask_len : Z)
  (result : str) (entity : EntityHit) : str :=
  slice_to result (start entity)
  ++ replacement operator mask_char mask_len entity
  ++ slice_from result (end_ entity).

Definition apply_sanitization (txt : str) (entities : list EntityHit)
  (operator mask_char : str) (mask_len : Z) : str :=
  let entities_reversed := Py.sorted_reverse start entities in
  fold_left (rewrite_one operator mask_char mask_len) entities_reversed txt.

Definition elevated : list str := [lit "expert"; lit "moderator"; lit "admin"].

Section Endpoints.

(** [difflib.ndiff], which only fills the [diff] field of a preview. *)
Variable ndiff : list str -> list str -> list str.

Definition sanitize_preview (req : PreviewRequest) (user : User)
  : outcome PreviewResponse :=
  match require_roles elevated user with
  | Raised e => Raised e
  | Returned _ =>
      let entities := find_entities (req_text req) (req_entities req) in
      let redacted_text :=
        apply_sanitization (req_text req) entities
          (operator req) (mask_char req) (mask_len req) in
      Returned {| redacted_text := redacted_text;
                  entities := entities;
                  diff := Some (ndiff [req_text req] [redacted_text]) |}
  end.

Definition sanitize_apply (req : PreviewRequest) (user : User)
  : outcome ApplyResponse :=
  match require_roles elevated user with
  | Raised e => Raised e
  | Returned _ =>
      let entities := find_entities (req_text req) (req_entities req) in
      let sanitized_text :=
        apply_sanitization (req_text req) entities
          (operator req) (mask_char req) (mask_len req) in
      Returned {| sanitized_text := sanitized_text;
                  entities_applied := entities |}
  end.

End Endpoints.


(* ================================================================== *)
(** ** Properties the specification speaks of *)
(* ================================================================== *)

(** Selecting the hits of one entity type. *)
Definition of_type (ty : str) (e : EntityHit) : bool :=
  str_eqb (entity_type e) ty.

(** Two half-open spans share a position. *)
Definition intersects (a b : EntityHit) : Prop :=
  (start a < end_ b)%Z /\ (start b < end_ a)%Z.

(** No two spans of the list intersect. *)
Definition non_overlapping (l : list EntityHit) : Prop :=
  ForallOrdPairs (fun a b => ~ intersects a b) l.

(** Ascending by [start]. *)
Definition sorted_by_start (l : list EntityHit) : Prop :=
  StronglySorted (le_key start) l.

(** The invariant of a match against [txt]: [0 <= start < end <= len]. *)
Definition in_text (txt : str) (e : EntityHit) : Prop :=
  (0 <= start e)%Z /\ (start e < end_ e)%Z /\ (end_ e <= len txt)%Z.

(** Each span ends no later than every later one starts. *)
Definition ends_before (a b : EntityHit) : Prop := (end_ a <= start b)%Z.

(** The overlap resolution as the specification words it: order the
    candidates by start ascending, then score descending, then span length
    descending ... *)
Definition precedes (a b : EntityHit) : bool :=
  if (start a <? start b)%Z then true
  else if (start b <? start a)%Z then false
  else if PrimFloat.ltb (score b) (score a) then true
  else if PrimFloat.ltb (score a) (score b) then false
  else (end_ b - start b <=? end_ a - start a)%Z.

Fixpoint insert_by_priority (x : EntityHit) (l : list EntityHit)
  : list EntityHit :=
  match l with
  | [] => [x]
  | y :: l' => if precedes x y then x :: l else y :: insert_by_priority x l'
  end.

Definition sort_by_priority (l : list EntityHit) : list EntityHit :=
  fold_right insert_by_priority [] l.

(** ... then scan left to right and keep a candidate only when its start is
    at or after the end of the last one kept. *)
Fixpoint keep_greedy (last_end : option Z) (l : list EntityHit)
  : list EntityHit :=
  match l with
  | [] => []
  | c :: l' =>
      if match last_end with
         | None => true
         | Some e => (e <=? start c)%Z
         end
      then c :: keep_greedy (Some (end_ c)) l'
      else keep_greedy last_end l'
  end.

Definition spec_resolve (cands : list EntityHit) : list EntityHit :=
  keep_greedy None (sort_by_priority cands).

(** The reference reconstruction of the specification: all spans are
    substituted at once, every offset read against the original text.
    [cursor] is the end of the span handled last. *)
Fixpoint reference_from (repl : EntityHit -> str) (txt : str) (cursor : Z)
  (spans : list EntityHit) : str :=
  match spans with
  | [] => slice_from txt cursor
  | e :: spans' =>
      slice txt cursor (start e) ++ repl e
      ++ reference_from repl txt (end_ e) spans'
  end.

Definition reference (txt : str) (spans : list EntityHit)
  (operator mask_char : str) (mask_len : Z) : str :=
  reference_from (replacement operator mask_char mask_len) txt 0 spans.

(** The characters the spans cover, summed over the set. *)
Definition covered (spans : list EntityHit) : Z :=
  fold_right (fun e acc => (end_ e - start e + acc)%Z) 0%Z spans.

(** A configuration the specification calls invalid. *)
Definition invalid_config (req : PreviewRequest) : bool :=
  negb (str_eqb (operator req) (lit "replace")
        || str_eqb (operator req) (lit "mask"))
  || (mask_len req <=? 0)%Z.

(** Inputs used as examples below. *)
Definition scenario : str :=
  lit "Contact me at a@b.com or call 555-123-4567, card 4111 1111 1111 1111".

Definition scenario_replaced : str :=
  lit "Contact me at <EMAIL> or call <PHONE>, card <CREDIT_CARD>".

Definition admin : User :=
  {| email := lit "root@example.org"; roles := [lit "admin"] |}.

Definition request (txt : str) (allowed : option (list str))
  (operator : str) (mask_char : str) (mask_len : Z) : PreviewRequest :=
  {| req_text := txt; language := lit "en"; req_entities := allowed;
     operator := operator; mask_char := mask_char; mask_len := mask_len |}.

Definition hit (ty : string) (s e : Z) (matched : string) : EntityHit :=
  {| entity_type := lit ty; start := s; end_ := e;
     score := score_0_95; text := lit matched |}.

(* ================================================================== *)
(** ** More of Python's [str], lists and dictionaries *)
(* ================================================================== *)

Module PyStr.

(** Truth value of a string: the empty string is false. *)
Definition nonempty (s : str) : bool :=
  match s with
  | [] => false
  | _ :: _ => true
  end.

(** [str.lower] on one code point below U+0100: the ASCII capitals and the
    Latin-1 capitals (U+00C0..U+00DE without the multiplication sign) move
    up by 32, everything else stays. *)
Definition lower_char (c : ascii) : ascii :=
  let n := nat_of_ascii c in
  if ((65 <=? n) && (n <=? 90))
     || ((192 <=? n) && (n <=? 222) && negb (n =? 215))
  then ascii_of_nat (n + 32)
  else c.

(** [s.lower()] *)
Definition lower (s : str) : str := map lower_char s.

(** [s.startswith(prefix)] *)
Fixpoint startswith (s prefix : str) : bool :=
  match prefix, s with
  | [], _ => true
  | p :: prefix', c :: s' => Ascii.eqb p c && startswith s' prefix'
  | _ :: _, [] => false
  end.

(** The text before and after the first [sep], when there is one. *)
Fixpoint partition (sep : ascii) (s : str) : option (str * str) :=
  match s with
  | [] => None
  | c :: s' =>
      if Ascii.eqb c sep then Some ([], s')
      else match partition sep s' with
           | Some (before, rest) => Some (c :: before, rest)
           | None => None
           end
  end.

(** [s.split(sep, 1)] for a separator of one character: at most one cut,
    at the first occurrence. *)
Definition split1 (sep : ascii) (s : str) : list str :=
  match partition sep s with
  | Some (before, rest) => [before; rest]
  | None => [s]
  end.

(** [str.isspace] on one code point below U+0100. *)
Definition isspace (c : ascii) : bool := Re.is_space c.

Fixpoint lstrip (s : str) : str :=
  match s with
  | [] => []
  | c :: s' => if isspace c then lstrip s' else s
  end.

Definition rstrip (s : str) : str := rev (lstrip (rev s)).

(** [s.strip()] *)
Definition strip (s : str) : str := rstrip (lstrip s).

(** [sep.join(parts)] *)
Fixpoint join (sep : str) (parts : list str) : str :=
  match parts with
  | [] => []
  | x :: rest =>
      match rest with
      | [] => x
      | _ :: _ => x ++ sep ++ join sep rest
      end
  end.

(** [str(n)] for an [int]: decimal digits, with a minus sign when negative. *)
Definition str_of_int (n : Z) : str :=
  list_ascii_of_string (DecimalString.NilZero.string_of_int (Z.to_int n)).

(** The values a JSON-like dictionary holds here: [None], booleans,
    integers and strings. *)
Inductive value : Type :=
| VNone
| VBool (b : bool)
| VInt (n : Z)
| VStr (s : str).

(** Truth value, as [or] and [not] see it. *)
Definition truthy (v : value) : bool :=
  match v with
  | VNone => false
  | VBool b => b
  | VInt n => negb (n =? 0)%Z
  | VStr s => nonempty s
  end.

(** How an f-string prints a value. *)
Definition format (v : value) : str :=
  match v with
  | VNone => lit "None"
  | VBool true => lit "True"
  | VBool false => lit "False"
  | VInt n => str_of_int n
  | VStr s => s
  end.

(** A dictionary with string keys, as the list of its items. *)
Definition dict (V : Type) := list (str * V).

(** [d.get(k)] as an option, [None] when the key is missing. *)
Fixpoint get (V : Type) (d : dict V) (k : str) : option V :=
  match d with
  | [] => None
  | (k', v) :: d' => if str_eqb k' k then Some v else get d' k
  end.

(** [d[k] = v]: the value of an existing key is replaced in place, a new
    key goes to the end. *)
Fixpoint set (V : Type) (d : dict V) (k : str) (v : V) : dict V :=
  match d with
  | [] => [(k, v)]
  | (k', v') :: d' =>
      if str_eqb k' k then (k', v) :: d' else (k', v') :: set d' k v
  end.

(** Strings in code point order, as [<] compares them. *)
Fixpoint str_ltb (a b : str) : bool :=
  match a, b with
  | _, [] => false
  | [], _ :: _ => true
  | x :: a', y :: b' =>
      (nat_of_ascii x <? nat_of_ascii y)
      || ((nat_of_ascii x =? nat_of_ascii y) && str_ltb a' b')
  end.

Fixpoint insert_set (x : str) (l : list str) : list str :=
  match l with
  | [] => [x]
  | y :: l' =>
      if str_ltb x y then x :: l
      else if str_eqb x y then l
      else y :: insert_set x l'
  end.

(** [sorted(set(l))]: the members of [l], each once, in ascending order. *)
Definition sorted_set (l : list str) : list str := fold_right insert_set [] l.

End PyStr.

Import PyStr.

(* ================================================================== *)
(** ** Authentication, shared by the services *)
(* ================================================================== *)

(** What a call may raise besides an [HTTPException]. *)
Inductive raised : Type :=
| Http (e : exn)
| IndexError.

(** The claims of a decoded token that the services read: [sub], a
    string, and [roles], a list of strings, as the login service issues
    them; each may be missing. *)
Record Payload : Type := {
  sub : option str;
  roles_claim : option (list str)
}.

Section Auth.

(** [jwt.decode] with the configured secret and algorithm; [None] stands
    for a [JWTError]. *)
Variable decode : str -> option Payload.

Definition get_current_user (authorization : option str) : User + raised :=
  match authorization with
  | None => inr (Http (HTTPException 401 (lit "Missing bearer token")))
  | Some a =>
      if negb (nonempty a) || negb (startswith (lower a) (lit "bearer "))
      then inr (Http (HTTPException 401 (lit "Missing bearer token")))
      else
        match nth_error (split1 " " a) 1 with
        | None => inr IndexError
        | Some token =>
            match decode token with
            | None => inr (Http (HTTPException 401 (lit "Invalid token")))
            | Some payload =>
                let roles := match roles_claim payload with
                             | Some r => r
                             | None => []
                             end in
                match sub payload with
                | Some (c :: email') =>
                    inl {| email := c :: email'; roles := roles |}
                | _ =>
                    inr (Http (HTTPException 401
                                 (lit "Invalid token (sub)")))
                end
            end
        end
  end.

(** The dependency chain of an endpoint that asks for [require_roles]:
    the user is resolved from the header first, then checked. *)
Definition checker (required : list str) (authorization : option str)
  : User + raised :=
  match get_current_user authorization with
  | inr e => inr e
  | inl user =>
      match require_roles required user with
      | Raised e => inr (Http e)
      | Returned u => inl u
      end
  end.

End Auth.

(** [GET /recognizers] of [main_simple.py]: the value of the ["entities"]
    member of the answer. *)
Definition recognizers (user : User) : outcome (list str) :=
  match require_roles elevated user with
  | Raised e => Raised e
  | Returned _ => Returned (map fst PATTERNS)
  end.

(* ================================================================== *)
(** ** main.py: the same service on an analyzer and an anonymizer *)
(* ================================================================== *)

(** The fields of an analyzer result that the service reads. *)
Module RecognizerResult.
Record t : Type := mk {
  entity_type : str;
  start : Z;
  end_ : Z;
  score : float
}.
End RecognizerResult.

(** An operator configuration: the operator's name and its parameters. *)
Record AnonymizerConfig : Type := {
  operator_name : str;
  params : dict value
}.

Module Main.

(** The entity types the service registers itself. *)
Definition custom_entities : list str :=
  [lit "ES_DNI"; lit "ES_IBAN"; lit "OPENAI_KEY"; lit "GENERIC_CREDIT_CARD"].

(** [_supported_entities()]; [base] is what the analyzer reports as
    supported for ["en"]. *)
Definition _supported_entities (base : list str) : list str :=
  sorted_set (base ++ custom_entities).

(** The configuration [_ops] stores for one entity type. *)
Definition config_for (operator mask_char : str) (mask_len : Z) (ent : str)
  : AnonymizerConfig :=
  if str_eqb operator (lit "mask")
  then {| operator_name := lit "mask";
          params := [(lit "masking_char", VStr mask_char);
                     (lit "chars_to_mask", VInt mask_len);
                     (lit "from_end", VBool true)] |}
  else {| operator_name := lit "replace";
          params := [(lit "new_value", VStr (lit "<" ++ ent ++ lit ">"))] |}.

(** [_ops(operator, mask_char, mask_len)] *)
Definition _ops (base : list str) (operator mask_char : str) (mask_len : Z)
  : dict AnonymizerConfig :=
  fold_left
    (fun ops ent => PyStr.set ops ent (config_for operator mask_char mask_len ent))
    (_supported_entities base) [].

(** [_filter] and [filter_entities] *)
Definition filter_entities (entities : list RecognizerResult.t)
  (allowed : option (list str)) : list RecognizerResult.t :=
  match allowed with
  | None => entities
  | Some [] => entities
  | Some (k :: ks) =>
      filter (fun e => mem (RecognizerResult.entity_type e) (k :: ks))
             entities
  end.

(** [_to_hits] and [to_hits] *)
Definition to_hits (txt : str) (results : list RecognizerResult.t)
  : list EntityHit :=
  map (fun r =>
         {| entity_type := RecognizerResult.entity_type r;
            start := RecognizerResult.start r;
            end_ := RecognizerResult.end_ r;
            score := RecognizerResult.score r;
            text := slice txt (RecognizerResult.start r)
                              (RecognizerResult.end_ r) |})
      results.

Section Endpoints.

(** The analyzer's supported entity types, its [analyze(text, language)],
    the [text] of what the anonymizer's [anonymize] returns, and
    [difflib.ndiff]. *)
Variable base : list str.
Variable analyze : str -> str -> list RecognizerResult.t.
Variable anonymize :
  str -> list RecognizerResult.t -> dict AnonymizerConfig -> str.
Variable ndiff : list str -> list str -> list str.

Definition sanitize_preview (req : PreviewRequest) (user : User)
  : outcome PreviewResponse :=
  match require_roles elevated user with
  | Raised e => Raised e
  | Returned _ =>
      let results := analyze (req_text req) (language req) in
      let results := filter_entities results (req_entities req) in
      let red :=
        anonymize (req_text req) results
          (_ops base (operator req) (mask_char req) (mask_len req)) in
      Returned {| redacted_text := red;
                  entities := to_hits (req_text req) results;
                  diff := Some (ndiff [req_text req] [red]) |}
  end.

Definition sanitize_apply (req : PreviewRequest) (user : User)
  : outcome ApplyResponse :=
  match require_roles elevated user with
  | Raised e => Raised e
  | Returned _ =>
      let results := analyze (req_text req) (language req) in
      let results := filter_entities results (req_entities req) in
      let out :=
        anonymize (req_text req) results
          (_ops base (operator req) (mask_char req) (mask_len req)) in
      Returned {| sanitized_text := out;
                  entities_applied := to_hits (req_text req) results |}
  end.

End Endpoints.

End Main.

(** The analyzer result that carries the span of a hit. *)
Definition result_of_hit (e : EntityHit) : RecognizerResult.t :=
  RecognizerResult.mk (entity_type e) (start e) (end_ e) (score e).

(* ================================================================== *)
(** ** rag-svc: the caller of the sanitize service *)
(* ================================================================== *)

Module Rag.

Definition nl : ascii := ascii_of_nat 10.

(** ['\n\n---\n\n'] *)
Definition separator : str := [nl; nl] ++ lit "---" ++ [nl; nl].

(** [a or b] *)
Definition or_ (a b : value) : value := if truthy a then a else b.

(** [m.get(k)] and [m.get(k, default)] *)
Definition get_or (m : dict value) (k : str) (default : value) : value :=
  match get m k with
  | Some v => v
  | None => default
  end.

(** One entry of the context: the header line and the stripped chunk. *)
Definition piece (i : Z) (d : str) (m : dict value) : str :=
  let source :=
    or_ (or_ (get_or m (lit "source") VNone) (get_or m (lit "filename") VNone))
        (VStr (lit "unknown")) in
  let chunk_idx := get_or m (lit "chunk_index") (VStr (lit "?")) in
  let header :=
    lit "[[" ++ str_of_int i ++ lit "]] " ++ format source
    ++ lit " (chunk " ++ format chunk_idx ++ lit ")" ++ [nl] in
  header ++ strip d.

(** The loop of [build_context] from entry number [i] on, [total]
    characters already taken: it stops at the first entry that would go
    over [max_chars]. *)
Fixpoint take_pieces (max_chars i total : Z) (pairs : list (str * dict value))
  : list str :=
  match pairs with
  | [] => []
  | (d, m) :: rest =>
      if (max_chars <? total + len (piece i d m))%Z then []
      else piece i d m
           :: take_pieces max_chars (i + 1) (total + len (piece i d m)) rest
  end.

Definition build_context (docs : list str) (metas : list (dict value))
  (max_chars : Z) : str :=
  join separator (take_pieces max_chars 1 0 (combine docs metas)).

(** What [requests.post] comes back with: an exception, or a response with
    its status code and, when the body is JSON, the string members of the
    object. *)
Inductive reply : Type :=
| NoReply
| Reply (status_code : Z) (json : option (dict str)).

Record QueryRequest : Type := {
  question : str;
  top_k : Z;
  sanitize_in : bool;
  sanitize_out : bool
}.

Record Citation : Type := {
  rank : Z;
  id : str;
  score : option float;
  source : option str;
  filename : option str;
  chunk_index : option Z;
  preview : option str
}.

Record QueryResponse : Type := {
  answer : str;
  citations : list Citation;
  question_sanitized : option str;
  latency_ms : Z
}.

(** The roles [rag_query] accepts. *)
Definition any_role : list str :=
  [lit "user"; lit "expert"; lit "moderator"; lit "admin"].

(** The conditional expression that gives [token] in [rag_query]. *)
Definition bearer (authorization : option str) : option str + raised :=
  match authorization with
  | None => inl None
  | Some a =>
      if nonempty a && startswith (lower a) (lit "bearer ")
      then match nth_error (split1 " " a) 1 with
           | Some t => inl (Some t)
           | None => inr IndexError
           end
      else inl None
  end.

(** [x and token], for a token that may be [None]. *)
Definition and_token (x : bool) (token : option str) : bool :=
  x && match token with
       | Some t => nonempty t
       | None => false
       end.

Section Client.

(** [settings.SANITIZE_BASE] and [requests.post(url, json, headers)]. *)
Variable SANITIZE_BASE : str.
Variable post : str -> dict str -> dict str -> reply.

(** The call both versions of [sanitize] make. *)
Definition sanitize_call (txt token : str) : reply :=
  post (SANITIZE_BASE ++ lit "/sanitize/apply")
       [(lit "text", txt); (lit "language", lit "en");
        (lit "operator", lit "replace")]
       [(lit "Authorization", lit "Bearer " ++ token);
        (lit "Content-Type", lit "application/json")].

(** [sanitize] of [main.py]; [None] stands for the exception of the call
    or of the decoding of the body, which this version lets through. *)
Definition sanitize_main (txt token : str) : option str :=
  match sanitize_call txt token with
  | NoReply => None
  | Reply status_code json =>
      if (300 <=? status_code)%Z then Some txt
      else match json with
           | None => None
           | Some body =>
               Some (match get body (lit "sanitized_text") with
                     | Some s => s
                     | None => txt
                     end)
           end
  end.

(** [sanitize] of [main_simple.py]: the whole body is inside [try], and any
    exception is answered with the text itself. *)
Definition sanitize (txt token : str) : str :=
  match sanitize_call txt token with
  | NoReply => txt
  | Reply status_code json =>
      if (300 <=? status_code)%Z then txt
      else match json with
           | None => txt
           | Some body =>
               match get body (lit "sanitized_text") with
               | Some s => s
               | None => txt
               end
           end
  end.

(** The answer of the mock around the question [q]. *)
Definition mock_answer (q : str) : str :=
  lit "Esta es una respuesta mock para la pregunta: '" ++ q
  ++ lit "'. El sistema RAG no est" ++ [ascii_of_nat 225]
  ++ lit " completamente configurado a" ++ [ascii_of_nat 250]
  ++ lit "n (falta OpenAI API key o Chroma). Pero la autenticaci"
  ++ [ascii_of_nat 243] ++ lit "n y sanitizaci" ++ [ascii_of_nat 243]
  ++ lit "n est" ++ [ascii_of_nat 225] ++ lit "n funcionando.".

Definition mock_citation : Citation :=
  {| rank := 1;
     id := lit "mock-doc-1";
     score := Some score_0_95;
     source := Some (lit "mock://document1.pdf");
     filename := Some (lit "document1.pdf");
     chunk_index := Some 0%Z;
     preview := Some (lit "Este es un fragmento mock de un documento...") |}.

(** [jwt.decode] as in [get_current_user], and the latency the clock gave. *)
Variable decode : str -> option Payload.
Variable dt : Z.

(** [rag_query] of [main_simple.py]. *)
Definition rag_query (req : QueryRequest) (authorization : option str)
  : QueryResponse + raised :=
  match checker decode any_role authorization with
  | inr e => inr e
  | inl _ =>
      match bearer authorization with
      | inr e => inr e
      | inl token =>
          let q :=
            if and_token (sanitize_in req) token
            then match token with
                 | Some t => sanitize (question req) t
                 | None => question req
                 end
            else question req in
          let answer0 := mock_answer q in
          let answer1 :=
            if and_token (sanitize_out req) token
            then match token with
                 | Some t => sanitize answer0 t
                 | None => answer0
                 end
            else answer0 in
          inl {| answer := answer1;
                 citations := [mock_citation];
                 question_sanitized :=
                   if sanitize_in req then Some q else None;
                 latency_ms := dt |}
      end
  end.

End Client.

End Rag.

(** The request the sanitize service reads from the JSON object rag-svc
    posts: members that are missing take the defaults of [PreviewRequest]. *)
Definition request_of_json (json : dict str) : option PreviewRequest :=
  match get json (lit "text") with
  | None => None
  | Some txt =>
      Some {| req_text := txt;
              language := match get json (lit "language") with
                          | Some l => l
                          | None => lit "en"
                          end;
              req_entities := None;
              operator := match get json (lit "operator") with
                          | Some o => o
                          | None => lit "replace"
                          end;
              mask_char := lit "*";
              mask_len := 6 |}
  end.

(** The reply [r] is one the sanitize service of [main_simple.py] gives to
    a POST of [json] with [headers] on [/sanitize/apply]: an exception of
    the endpoint comes back as its status code, a result as status 200
    with the result's [sanitized_text] in the body. *)
Definition served (decode : str -> option Payload)
  (json headers : dict str) (r : Rag.reply) : Prop :=
  match checker decode elevated (get headers (lit "Authorization")) with
  | inr (Http (HTTPException c _)) => exists body, r = Rag.Reply c body
  | inr IndexError => exists body, r = Rag.Reply 500 body
  | inl user =>
      match request_of_json json with
      | None => exists body, r = Rag.Reply 422 body
      | Some req =>
          match sanitize_apply req user with
          | Raised (HTTPException c _) => exists body, r = Rag.Reply c body
          | Returned a =>
              exists body,
                r = Rag.Reply 200 (Some body)
                /\ get body (lit "sanitized_text") = Some (sanitized_text a)
          end
      end
  end.

(* ================================================================== *)
(** ** Measures of a pattern *)
(* ================================================================== *)

(** The most characters a match of [p] spans, when every repetition of [p]
    is bounded. *)
Fixpoint max_len (p : pattern) : option nat :=
  match p with
  | [] => Some 0
  | WordBoundary :: rest => max_len rest
  | Repeat _ hi _ :: rest =>
      match hi, max_len rest with
      | Some h, Some m => Some (h + m)
      | _, _ => None
      end
  end.

(** The character [c] is in the set of some repetition of [p]. *)
Definition accepts (ic : bool) (p : pattern) (c : ascii) : bool :=
  existsb (fun n => match n with
                    | WordBoundary => false
                    | Repeat _ _ cls => in_class ic cls c
                    end) p.

(** The entries [build_context] chooses from, numbered from [i]. *)
Fixpoint numbered (i : Z) (pairs : list (str * dict value)) : list str :=
  match pairs with
  | [] => []
  | (d, m) :: rest => Rag.piece i d m :: numbered (i + 1) rest
  end.

(** The characters of a list of strings, counted together. *)
Definition total_len (l : list str) : Z :=
  fold_right (fun s acc => (len s + acc)%Z) 0%Z l.

(** One reply that is [served]: the status code of the exception or 200,
    and a body with the detail or the sanitized text. *)
Definition relay (decode : str -> option Payload)
  (json headers : dict str) : Rag.reply :=
  match checker decode elevated (get headers (lit "Authorization")) with
  | inr (Http (HTTPException c detail)) =>
      Rag.Reply c (Some [(lit "detail", detail)])
  | inr IndexError => Rag.Reply 500 None
  | inl user =>
      match request_of_json json with
      | None => Rag.Reply 422 None
      | Some req =>
          match sanitize_apply req user with
          | Raised (HTTPException c detail) =>
              Rag.Reply c (Some [(lit "detail", detail)])
          | Returned a =>
              Rag.Reply 200 (Some [(lit "sanitized_text", sanitized_text a)])
          end
      end
  end.

(** A transport that never gets an answer below status 300 through. *)
Definition unavailable (post : str -> dict str -> dict str -> Rag.reply)
  : Prop :=
  forall url json headers,
    post url json headers = Rag.NoReply
    \/ exists c body, post url json headers = Rag.Reply c body
                      /\ (300 <= c)%Z.

(* ================================================================== *)
(** ** files-svc: object names *)
(* ================================================================== *)

Module Files.

(** The characters the class of [SAFE_NAME_RE] spares: [a-zA-Z0-9._/-]. *)
Definition safe (c : ascii) : bool :=
  Re.between "a" "z" c || Re.between "A" "Z" c || Re.between "0" "9" c
  || Ascii.eqb c "." || Ascii.eqb c "_" || Ascii.eqb c "/" || Ascii.eqb c "-".

(** [name.replace('..', '.')]: the occurrences are taken from the left and
    do not overlap. *)
Fixpoint replace_dotdot (s : str) : str :=
  match s with
  | [] => []
  | c :: rest =>
      match rest with
      | c' :: rest' =>
          if Ascii.eqb c "." && Ascii.eqb c' "."
          then "."%char :: replace_dotdot rest'
          else c :: replace_dotdot rest
      | [] => [c]
      end
  end.

(** [SAFE_NAME_RE.sub('_', s)]: every maximal run of characters outside the
    class becomes one underscore; [in_run] tells that the run the next
    character would belong to has its underscore already. *)
Fixpoint sub_unsafe (in_run : bool) (s : str) : str :=
  match s with
  | [] => []
  | c :: rest =>
      if safe c then c :: sub_unsafe false rest
      else if in_run then sub_unsafe true rest
           else "_"%char :: sub_unsafe true rest
  end.

Definition is_underscore (c : ascii) : bool := Ascii.eqb c "_".

Fixpoint lstrip_underscore (s : str) : str :=
  match s with
  | [] => []
  | c :: rest => if is_underscore c then lstrip_underscore rest else s
  end.

(** [s.strip('_')] *)
Definition strip_underscore (s : str) : str :=
  rev (lstrip_underscore (rev (lstrip_underscore s))).

Definition sanitize_object_name (name : str) : outcome str :=
  let name := replace_dotdot name in
  let name := strip_underscore (sub_unsafe false name) in
  if negb (nonempty name)
  then Raised (HTTPException 400 (lit "Invalid filename"))
  else Returned name.

(** Two dots in a row somewhere in [s]. *)
Fixpoint has_dotdot (s : str) : bool :=
  match s with
  | [] => false
  | c :: rest =>
      match rest with
      | c' :: _ => (Ascii.eqb c "." && Ascii.eqb c' ".") || has_dotdot rest
      | [] => false
      end
  end.

(** Three dots in a row somewhere in [s]. *)
Fixpoint has_dots3 (s : str) : bool :=
  match s with
  | [] => false
  | c :: rest =>
      match rest with
      | c' :: c'' :: _ =>
          (Ascii.eqb c "." && Ascii.eqb c' "." && Ascii.eqb c'' ".")
          || has_dots3 rest
      | _ => false
      end
  end.

End Files.

(* ================================================================== *)
(** ** Letter case *)
(* ================================================================== *)

(** No character changes its standing towards the set [cls] when it is
    lowered. *)
Definition class_blind (cls : list cset) : bool :=
  forallb (fun n => Bool.eqb (in_class true cls (lower_char (ascii_of_nat n)))
                             (in_class true cls (ascii_of_nat n)))
          (seq 0 256).

Definition pattern_blind (p : pattern) : bool :=
  forallb (fun n => match n with
                    | WordBoundary => true
                    | Repeat _ _ cls => class_blind cls
                    end) p.

(** The hit [e] with [f] applied to its [text]. *)
Definition with_text (f : str -> str) (e : EntityHit) : EntityHit :=
  {| entity_type := entity_type e;
     start := start e;
     end_ := end_ e;
     score := score e;
     text := f (text e) |}.

(* ================================================================== *)
(** ** rag-starter-svc *)
(* ================================================================== *)

Module RagStarter.

Record QueryRequest : Type := {
  question : str;
  top_k : Z;
  top : Z
}.

(** A retrieved candidate: the members [query] reads, each possibly
    missing. *)
Record Candidate : Type := {
  c_text : option str;
  c_meta : option (dict value);
  c_score : option float
}.

Record Citation : Type := {
  rank : Z;
  text : str;
  meta : dict value;
  score : option float
}.

Record QueryResponse : Type := {
  answer : str;
  citations : list Citation
}.

(** [l[:i]] for a list. *)
Definition upto (A : Type) (l : list A) (i : Z) : list A :=
  firstn (slice_index (Z.of_nat (length l)) i) l.

(** The loop over [enumerate(ctx, start=i)]. *)
Fixpoint cite (i : Z) (ctx : list Candidate) : list Citation :=
  match ctx with
  | [] => []
  | c :: rest =>
      {| rank := i;
         text := match c_text c with Some t => t | None => [] end;
         meta := match c_meta c with Some m => m | None => [] end;
         score := c_score c |}
      :: cite (i + 1) rest
  end.

Section Query.

(** [dense_retrieve(question, k)] and [generate_answer(question, ctx)] of
    the rag-starter sources. *)
Variable dense_retrieve : str -> Z -> list Candidate.
Variable generate_answer : str -> list Candidate -> str.

Definition query (req : QueryRequest) : outcome QueryResponse :=
  let cands := dense_retrieve (question req) (top_k req) in
  let ctx := upto cands (top req) in
  match ctx with
  | [] =>
      Raised (HTTPException 404
                (lit "No hay contexto recuperado. "
                 ++ [ascii_of_nat 191] ++ lit "Indexaste documentos?"))
  | _ :: _ =>
      Returned {| answer := generate_answer (question req) ctx;
                  citations := cite 1 ctx |}
  end.

End Query.

End RagStarter.

Unset Implicit Arguments.

(* ================================================================== *)
(** ** Facts about the Python fragment *)
(* ================================================================== *)

Lemma str_eqb_eq (a b : str) : str_eqb a b = true <-> a = b.
Proof.
  revert b; induction a as [|x a IH]; intros [|y b]; simpl;
    try (split; [discriminate | discriminate]); try tauto.
  rewrite andb_true_iff, Ascii.eqb_eq, IH.
  split; [intros [-> ->]; reflexivity | intros [= -> ->]; auto].
Qed.

Lemma str_eqb_refl (a : str) : str_eqb a a = true.
Proof. apply str_eqb_eq; reflexivity. Qed.

Lemma mem_In (k : str) (l : list str) : mem k l = true <-> In k l.
Proof.
  unfold mem; rewrite existsb_exists; split.
  - intros (x & Hin & Heq). apply str_eqb_eq in Heq. now subst.
  - intros Hin. exists k. split; [assumption | apply str_eqb_refl].
Qed.

(** Inside [0..len] a slice bound is the offset itself. *)
Lemma slice_index_inside (n i : Z) :
  (0 <= i <= n)%Z -> slice_index n i = Z.to_nat i.
Proof.
  intros H. unfold slice_index.
  destruct (Z.ltb_spec i 0); [lia | f_equal; lia].
Qed.

Lemma slice_to_inside (s : str) (i : Z) :
  (0 <= i <= len s)%Z -> slice_to s i = firstn (Z.to_nat i) s.
Proof. intros H. unfold slice_to. now rewrite slice_index_inside. Qed.

Lemma slice_from_inside (s : str) (i : Z) :
  (0 <= i <= len s)%Z -> slice_from s i = skipn (Z.to_nat i) s.
Proof. intros H. unfold slice_from. now rewrite slice_index_inside. Qed.

Lemma slice_inside (s : str) (i j : Z) :
  (0 <= i <= j)%Z -> (j <= len s)%Z ->
  slice s i j = firstn (Z.to_nat j - Z.to_nat i) (skipn (Z.to_nat i) s).
Proof.
  intros Hi Hj. unfold slice.
  rewrite !slice_index_inside by lia. reflexivity.
Qed.

Lemma len_app (a b : str) : len (a ++ b) = (len a + len b)%Z.
Proof. unfold len. rewrite length_app. lia. Qed.

(** [s[:i] + s[i:j] = s[:j]] and [s[:i] + s[i:] = s] for offsets in order. *)
Lemma slice_to_slice (s : str) (i j : Z) :
  (0 <= i <= j)%Z -> (j <= len s)%Z ->
  slice_to s i ++ slice s i j = slice_to s j.
Proof.
  intros Hi Hj.
  rewrite slice_inside, !slice_to_inside by lia.
  rewrite <- (firstn_skipn (Z.to_nat i) (firstn (Z.to_nat j) s)).
  rewrite firstn_firstn, skipn_firstn_comm.
  replace (Nat.min (Z.to_nat i) (Z.to_nat j)) with (Z.to_nat i) by lia.
  reflexivity.
Qed.

Lemma mul_length (s : str) (n : Z) :
  length (mul s n) = length s * Z.to_nat n.
Proof.
  unfold mul. induction (Z.to_nat n) as [|k IH]; simpl.
  - lia.
  - rewrite length_app, IH. lia.
Qed.

Lemma mul_nonpositive (s : str) (n : Z) : (n <= 0)%Z -> mul s n = [].
Proof.
  intros H. unfold mul. replace (Z.to_nat n) with 0 by lia. reflexivity.
Qed.

Section SortFacts.
Variable A : Type.
Variable key : A -> Z.

Lemma insert_asc_perm (x : A) (l : list A) :
  Permutation (x :: l) (insert_asc key x l).
Proof.
  induction l as [|y l IH]; simpl; [reflexivity|].
  destruct (key x <=? key y)%Z; [reflexivity|].
  rewrite perm_swap. now constructor.
Qed.

Lemma sorted_perm (l : list A) : Permutation l (Py.sorted key l).
Proof.
  induction l as [|x l IH]; simpl; [constructor|].
  rewrite <- insert_asc_perm. now constructor.
Qed.

Lemma insert_asc_sorted (x : A) (l : list A) :
  StronglySorted (le_key key) l -> StronglySorted (le_key key) (insert_asc key x l).
Proof.
  induction 1 as [|y l Hs IH Hall]; simpl.
  - repeat constructor.
  - destruct (Z.leb_spec (key x) (key y)) as [Hle|Hlt].
    + constructor; [now constructor|].
      constructor; [exact Hle|].
      eapply Forall_impl; [|exact Hall]. unfold le_key. intros; lia.
    + constructor; [exact IH|].
      eapply Permutation_Forall; [apply insert_asc_perm|].
      constructor; [unfold le_key; lia | exact Hall].
Qed.

Lemma sorted_sorted (l : list A) : StronglySorted (le_key key) (Py.sorted key l).
Proof.
  induction l as [|x l IH]; simpl; [constructor|].
  now apply insert_asc_sorted.
Qed.

(** Stability: the elements of one key keep the order they came in. *)
Lemma insert_asc_filter (k : Z) (x : A) (l : list A) :
  filter (fun a => (key a =? k)%Z) (insert_asc key x l)
  = filter (fun a => (key a =? k)%Z) (x :: l).
Proof.
  induction l as [|y l IH]; [reflexivity|].
  simpl insert_asc.
  destruct (Z.leb_spec (key x) (key y)) as [Hle|Hlt]; [reflexivity|].
  simpl in *. rewrite IH.
  destruct (Z.eqb_spec (key x) k), (Z.eqb_spec (key y) k);
    try reflexivity; lia.
Qed.

Lemma sorted_stable (k : Z) (l : list A) :
  filter (fun a => (key a =? k)%Z) (Py.sorted key l)
  = filter (fun a => (key a =? k)%Z) l.
Proof.
  induction l as [|x l IH]; [reflexivity|].
  simpl Py.sorted. rewrite insert_asc_filter. simpl. now rewrite IH.
Qed.

(** A list already in order is left as it is. *)
Lemma sorted_id (l : list A) :
  StronglySorted (le_key key) l -> Py.sorted key l = l.
Proof.
  induction 1 as [|x l Hs IH Hall]; [reflexivity|].
  simpl. rewrite IH. destruct l as [|y l]; [reflexivity|].
  simpl. inversion Hall as [|? ? Hxy _]; subst. unfold le_key in Hxy.
  destruct (Z.leb_spec (key x) (key y)); [reflexivity | lia].
Qed.

(** Sorting and selecting commute: a stable sort does not reorder the
    selected elements among themselves. *)
Lemma insert_asc_select (P : A -> bool) (x : A) (l : list A) :
  StronglySorted (le_key key) l ->
  filter P (insert_asc key x l)
  = if P x then insert_asc key x (filter P l) else filter P l.
Proof.
  induction 1 as [|y l Hs IH Hall]; simpl.
  - destruct (P x); reflexivity.
  - destruct (Z.leb_spec (key x) (key y)) as [Hle|Hlt]; simpl.
    + destruct (P x) eqn:HPx; [|reflexivity].
      destruct (P y) eqn:HPy; simpl.
      * destruct (Z.leb_spec (key x) (key y)); [reflexivity | lia].
      * assert (Hge : Forall (fun b => (key x <= key b)%Z) (filter P l)).
        { apply Forall_forall. intros b Hb. apply filter_In in Hb.
          rewrite Forall_forall in Hall. specialize (Hall b (proj1 Hb)).
          unfold le_key in Hall. lia. }
        destruct (filter P l) as [|z r]; [reflexivity|].
        simpl. inversion Hge; subst.
        destruct (Z.leb_spec (key x) (key z)); [reflexivity | lia].
    + rewrite IH. destruct (P x), (P y); simpl; try reflexivity.
      destruct (Z.leb_spec (key x) (key y)); [lia | reflexivity].
Qed.

Lemma sorted_select (P : A -> bool) (l : list A) :
  filter P (Py.sorted key l) = Py.sorted key (filter P l).
Proof.
  induction l as [|x l IH]; [reflexivity|].
  simpl Py.sorted. rewrite insert_asc_select by apply sorted_sorted.
  simpl filter. destruct (P x); simpl; now rewrite IH.
Qed.

(** With strictly increasing keys, the descending stable sort reverses. *)
Lemma insert_desc_last (x : A) (l : list A) :
  Forall (fun y => (key x < key y)%Z) l -> insert_desc key x l = l ++ [x].
Proof.
  induction 1 as [|y l Hy Hall IH]; [reflexivity|].
  simpl. destruct (Z.leb_spec (key y) (key x)); [lia|].
  now rewrite IH.
Qed.

Lemma sorted_reverse_rev (l : list A) :
  StronglySorted (fun a b => (key a < key b)%Z) l ->
  Py.sorted_reverse key l = rev l.
Proof.
  induction 1 as [|x l Hs IH Hall]; [reflexivity|].
  simpl. rewrite IH. apply insert_desc_last.
  apply Forall_rev. exact Hall.
Qed.

Lemma insert_desc_perm (x : A) (l : list A) :
  Permutation (x :: l) (insert_desc key x l).
Proof.
  induction l as [|y l IH]; simpl; [reflexivity|].
  destruct (key y <=? key x)%Z; [reflexivity|].
  rewrite perm_swap. now constructor.
Qed.

Lemma sorted_reverse_perm (l : list A) :
  Permutation l (Py.sorted_reverse key l).
Proof.
  induction l as [|x l IH]; simpl; [constructor|].
  rewrite <- insert_desc_perm. now constructor.
Qed.

End SortFacts.

(* ================================================================== *)
(** ** Facts about matching *)
(* ================================================================== *)

Lemma run_le (ic : bool) (cls : list cset) (cap : option nat) (s : str) :
  run ic cls cap s <= length s.
Proof.
  revert cap; induction s as [|c s IH]; intros cap; simpl; [lia|].
  destruct cap as [[|n]|]; try lia;
    destruct (in_class ic cls c); simpl; try lia;
    match goal with |- S (run _ _ ?c' _) <= _ => specialize (IH c'); lia end.
Qed.

(** A repetition that succeeds took between [lo] and [n] characters. *)
Lemma backtrack_some (k : nat -> option nat) (lo n e : nat) :
  backtrack k lo n = Some e -> exists m, lo <= m <= n /\ k m = Some e.
Proof.
  induction n as [|n IH]; simpl.
  - destruct lo; simpl; [|discriminate].
    destruct (k 0) eqn:Hk; [|discriminate].
    intros [= ->]. exists 0. split; [lia | exact Hk].
  - destruct (Nat.ltb_spec (S n) lo) as [Hlt|Hge]; [discriminate|].
    destruct (k (S n)) eqn:Hk.
    + intros [= ->]. exists (S n). split; [lia | exact Hk].
    + intros H. destruct (IH H) as (m & Hm & Hkm).
      exists m. split; [lia | exact Hkm].
Qed.

(** A match stays inside the text and spans at least [min_len p]. *)
Lemma match_at_bounds (ic : bool) (p : pattern) (s : str) :
  forall pos e, pos <= length s -> match_at ic p s pos = Some e ->
                pos + min_len p <= e <= length s.
Proof.
  induction p as [|[|lo hi cls] rest IH]; intros pos e Hpos; simpl.
  - intros [= ->]. lia.
  - destruct (at_boundary s pos); [|discriminate].
    intros H. apply IH in H; lia.
  - intros H. apply backtrack_some in H. destruct H as (m & Hm & Hk).
    pose proof (run_le ic cls hi (skipn pos s)) as Hrun.
    rewrite length_skipn in Hrun.
    apply IH in Hk; lia.
Qed.

Section ScanFacts.
Variable ic : bool.
Variable p : pattern.
Variable s : str.

(** Every match the scan yields lies in the text, at or after the position
    the scan started from. *)
Lemma scan_bounds (fuel : nat) :
  forall pos,
    Forall (fun m => pos <= fst m /\ fst m + min_len p <= snd m <= length s)
           (scan fuel ic p s pos).
Proof.
  induction fuel as [|fuel IH]; intros pos; simpl; [constructor|].
  destruct (Nat.ltb_spec (length s) pos) as [Hout|Hin]; [constructor|].
  destruct (match_at ic p s pos) as [e|] eqn:Hm.
  - pose proof (match_at_bounds ic p s pos e Hin Hm) as Hb.
    constructor; [simpl; lia|].
    eapply Forall_impl; [|apply IH]. simpl. intros m Hmm.
    destruct (Nat.ltb_spec pos e); lia.
  - eapply Forall_impl; [|apply IH]. simpl. intros m Hmm. lia.
Qed.

(** Successive matches do not overlap: each starts at or after the end of
    all earlier ones. *)
Lemma scan_chain (fuel : nat) :
  forall pos,
    StronglySorted (fun m m' => snd m <= fst m') (scan fuel ic p s pos).
Proof.
  induction fuel as [|fuel IH]; intros pos; simpl; [constructor|].
  destruct (Nat.ltb_spec (length s) pos) as [Hout|Hin]; [constructor|].
  destruct (match_at ic p s pos) as [e|] eqn:Hm; [|apply IH].
  pose proof (match_at_bounds ic p s pos e Hin Hm) as Hb.
  constructor; [apply IH|].
  eapply Forall_impl; [|apply scan_bounds]. simpl. intros m Hmm.
  destruct (Nat.ltb_spec pos e); lia.
Qed.

(** The fuel [finditer] gives suffices: once every position up to the end
    of the text can be visited, more fuel changes nothing. *)
Lemma scan_fuel (fuel : nat) :
  forall pos extra,
    S (length s) <= pos + fuel ->
    scan (fuel + extra) ic p s pos = scan fuel ic p s pos.
Proof.
  induction fuel as [|fuel IH]; intros pos extra Hfuel.
  - simpl. destruct extra; [reflexivity|]. simpl.
    destruct (Nat.ltb_spec (length s) pos); [reflexivity | lia].
  - simpl. destruct (Nat.ltb_spec (length s) pos) as [Hout|Hin];
      [reflexivity|].
    destruct (match_at ic p s pos) as [e|] eqn:Hm.
    + f_equal. apply IH. destruct (Nat.ltb_spec pos e); lia.
    + apply IH. lia.
Qed.

End ScanFacts.

Lemma finditer_fuel (p : pattern) (s : str) (ic : bool) (extra : nat) :
  scan (S (length s) + extra) ic p s 0 = finditer p s ic.
Proof. unfold finditer. apply scan_fuel. lia. Qed.

(* ================================================================== *)
(** ** Facts about [find_entities] *)
(* ================================================================== *)

(** Every registered pattern needs at least one character. *)
Lemma PATTERNS_nonempty_matches :
  Forall (fun kv => 1 <= min_len (snd kv)) PATTERNS.
Proof. repeat constructor; simpl; lia. Qed.

(** The registered entity types are pairwise different. *)
Lemma PATTERNS_keys_NoDup : NoDup (map fst PATTERNS).
Proof.
  cbv [PATTERNS map fst].
  repeat (constructor;
          [intros H; simpl in H;
           repeat (destruct H as [H|H]; [vm_compute in H; discriminate H|]);
           exact H|]).
  constructor.
Qed.

Lemma active_patterns_incl (allowed : option (list str)) :
  incl (active_patterns allowed) PATTERNS.
Proof.
  unfold active_patterns. destruct (falsy allowed); [apply incl_refl|].
  intros kv Hin. apply filter_In in Hin. tauto.
Qed.

Lemma hits_of_type (txt : str) (kv : str * pattern) :
  Forall (fun e => entity_type e = fst kv) (hits_of txt kv).
Proof.
  unfold hits_of. apply Forall_forall. intros e Hin.
  apply in_map_iff in Hin. destruct Hin as (m & <- & _). reflexivity.
Qed.

Lemma hits_of_in_text (txt : str) (kv : str * pattern) :
  1 <= min_len (snd kv) -> Forall (in_text txt) (hits_of txt kv).
Proof.
  intros Hmin. unfold hits_of, finditer. apply Forall_forall. intros e Hin.
  apply in_map_iff in Hin. destruct Hin as (m & <- & Hm).
  pose proof (scan_bounds true (snd kv) txt (S (length txt)) 0) as Hb.
  rewrite Forall_forall in Hb. specialize (Hb m Hm).
  unfold in_text, len. simpl. lia.
Qed.

Lemma hits_of_text (txt : str) (kv : str * pattern) :
  Forall (fun e => text e = slice txt (start e) (end_ e)) (hits_of txt kv).
Proof.
  unfold hits_of. apply Forall_forall. intros e Hin.
  apply in_map_iff in Hin. destruct Hin as (m & <- & _). reflexivity.
Qed.

Lemma hits_of_chain (txt : str) (kv : str * pattern) :
  StronglySorted (fun a b => (end_ a <= start b)%Z) (hits_of txt kv).
Proof.
  unfold hits_of, finditer.
  pose proof (scan_chain true (snd kv) txt (S (length txt)) 0) as Hc.
  induction Hc as [|m l Hs IH Hall]; simpl; constructor; [exact IH|].
  apply Forall_forall. intros e Hin. apply in_map_iff in Hin.
  destruct Hin as (m' & <- & Hm'). simpl.
  rewrite Forall_forall in Hall. specialize (Hall m' Hm'). lia.
Qed.

Lemma in_find_entities (txt : str) (allowed : option (list str))
  (e : EntityHit) :
  In e (find_entities txt allowed) <->
  exists kv, In kv (active_patterns allowed) /\ In e (hits_of txt kv).
Proof.
  unfold find_entities, candidates. split.
  - intros Hin. apply in_flat_map.
    eapply Permutation_in; [symmetry; apply sorted_perm | exact Hin].
  - intros Hex. eapply Permutation_in; [apply sorted_perm|].
    now apply in_flat_map.
Qed.

Lemma hits_of_ordered (txt : str) (kv : str * pattern) :
  Forall (fun e => (start e <= end_ e)%Z) (hits_of txt kv).
Proof.
  unfold hits_of, finditer. apply Forall_forall. intros e Hin.
  apply in_map_iff in Hin. destruct Hin as (m & <- & Hm).
  pose proof (scan_bounds true (snd kv) txt (S (length txt)) 0) as Hb.
  rewrite Forall_forall in Hb. specialize (Hb m Hm). simpl. lia.
Qed.

Lemma hits_of_sorted (txt : str) (kv : str * pattern) :
  StronglySorted (le_key start) (hits_of txt kv).
Proof.
  pose proof (hits_of_chain txt kv) as Hc.
  pose proof (hits_of_ordered txt kv) as Ho.
  induction Hc as [|e l Hs IH Hall]; constructor.
  - apply IH. now inversion Ho.
  - inversion Ho as [|? ? He _]; subst.
    eapply Forall_impl; [|exact Hall]. unfold le_key. simpl. intros; lia.
Qed.

Lemma filter_all (A : Type) (P : A -> bool) (l : list A) :
  Forall (fun a => P a = true) l -> filter P l = l.
Proof.
  induction 1 as [|a l Ha _ IH]; simpl; [reflexivity|].
  now rewrite Ha, IH.
Qed.

Lemma filter_none (A : Type) (P : A -> bool) (l : list A) :
  Forall (fun a => P a = false) l -> filter P l = [].
Proof.
  induction 1 as [|a l Ha _ IH]; simpl; [reflexivity|].
  now rewrite Ha.
Qed.

Lemma of_type_hits_same (txt : str) (kv : str * pattern) :
  filter (of_type (fst kv)) (hits_of txt kv) = hits_of txt kv.
Proof.
  apply filter_all. eapply Forall_impl; [|apply hits_of_type].
  intros e He. unfold of_type. now apply str_eqb_eq.
Qed.

Lemma of_type_hits_other (txt ty : str) (kv : str * pattern) :
  fst kv <> ty -> filter (of_type ty) (hits_of txt kv) = [].
Proof.
  intros Hne. apply filter_none. eapply Forall_impl; [|apply hits_of_type].
  intros e He. unfold of_type. destruct (str_eqb (entity_type e) ty) eqn:E;
    [|reflexivity].
  apply str_eqb_eq in E. congruence.
Qed.

Lemma of_type_candidates_none (txt ty : str) (ps : list (str * pattern)) :
  ~ In ty (map fst ps) -> filter (of_type ty) (candidates txt ps) = [].
Proof.
  induction ps as [|kv ps IH]; simpl; [reflexivity|].
  intros Hnin. rewrite filter_app, of_type_hits_other, IH; tauto.
Qed.

(** With distinct keys, the candidates of one type come from one pattern. *)
Lemma of_type_candidates (txt ty : str) (ps : list (str * pattern)) :
  NoDup (map fst ps) ->
  filter (of_type ty) (candidates txt ps) = []
  \/ exists kv, In kv ps /\ filter (of_type ty) (candidates txt ps)
                            = hits_of txt kv.
Proof.
  induction ps as [|kv ps IH]; simpl; [now left|].
  intros Hnd. inversion Hnd as [|? ? Hnin Hnd']; subst.
  rewrite filter_app.
  destruct (list_eq_dec ascii_dec (fst kv) ty) as [<-|Hne].
  - right. exists kv. split; [now left|].
    rewrite of_type_hits_same, of_type_candidates_none by assumption.
    apply app_nil_r.
  - rewrite of_type_hits_other by assumption. simpl.
    destruct (IH Hnd') as [Hnil|(kv' & Hin & Heq)]; [now left|].
    right. exists kv'. split; [now right | exact Heq].
Qed.

Lemma NoDup_map_filter (A B : Type) (f : A -> B) (P : A -> bool)
  (l : list A) :
  NoDup (map f l) -> NoDup (map f (filter P l)).
Proof.
  induction l as [|a l IH]; simpl; [constructor|].
  intros Hnd. inversion Hnd as [|? ? Hnin Hnd']; subst.
  destruct (P a); simpl; [|auto].
  constructor; [|auto].
  intros Hin. apply Hnin. apply in_map_iff in Hin.
  destruct Hin as (x & Hx & Hxin). apply filter_In in Hxin.
  apply in_map_iff. exists x. tauto.
Qed.

Lemma active_patterns_NoDup (allowed : option (list str)) :
  NoDup (map fst (active_patterns allowed)).
Proof.
  unfold active_patterns. destruct (falsy allowed).
  - apply PATTERNS_keys_NoDup.
  - apply NoDup_map_filter, PATTERNS_keys_NoDup.
Qed.

(** The hits of one entity type, as they stand in the result, are the
    matches of one pattern in scan order. *)
Lemma find_entities_of_type (txt ty : str) (allowed : option (list str)) :
  filter (of_type ty) (find_entities txt allowed) = []
  \/ exists kv, In kv (active_patterns allowed)
                /\ filter (of_type ty) (find_entities txt allowed)
                   = hits_of txt kv.
Proof.
  unfold find_entities. rewrite sorted_select.
  destruct (of_type_candidates txt ty _ (active_patterns_NoDup allowed))
    as [-> | (kv & Hin & ->)]; [now left|].
  right. exists kv. split; [exact Hin|].
  apply sorted_id, hits_of_sorted.
Qed.

(** A relation that orders each selected sublist holds of every ordered
    pair of equal type. *)
Lemma pairs_of_selected (R : EntityHit -> EntityHit -> Prop)
  (l : list EntityHit) :
  (forall ty, StronglySorted R (filter (of_type ty) l)) ->
  ForallOrdPairs (fun a b => entity_type a = entity_type b -> R a b) l.
Proof.
  induction l as [|x l IH]; intros Hsel; constructor.
  - specialize (Hsel (entity_type x)). simpl in Hsel.
    unfold of_type at 1 in Hsel. rewrite str_eqb_refl in Hsel.
    inversion Hsel as [|? ? _ Hall]; subst.
    apply Forall_forall. intros b Hb Hty.
    rewrite Forall_forall in Hall. apply Hall.
    apply filter_In. split; [exact Hb|].
    unfold of_type. apply str_eqb_eq. now symmetry.
  - apply IH. intros ty. specialize (Hsel ty). simpl in Hsel.
    destruct (of_type ty x); [now inversion Hsel | exact Hsel].
Qed.

Lemma find_entities_same_type (txt : str) (allowed : option (list str)) :
  ForallOrdPairs
    (fun a b => entity_type a = entity_type b -> (end_ a <= start b)%Z)
    (find_entities txt allowed).
Proof.
  apply pairs_of_selected. intros ty.
  destruct (find_entities_of_type txt ty allowed)
    as [-> | (kv & _ & ->)]; [constructor | apply hits_of_chain].
Qed.

Lemma find_entities_in_text (txt : str) (allowed : option (list str)) :
  Forall (in_text txt) (find_entities txt allowed).
Proof.
  apply Forall_forall. intros e Hin.
  apply in_find_entities in Hin. destruct Hin as (kv & Hkv & He).
  assert (Hmin : 1 <= min_len (snd kv)).
  { pose proof PATTERNS_nonempty_matches as H.
    rewrite Forall_forall in H. apply H.
    now apply (active_patterns_incl allowed). }
  pose proof (hits_of_in_text txt kv Hmin) as H.
  rewrite Forall_forall in H. now apply H.
Qed.

Lemma find_entities_text (txt : str) (allowed : option (list str)) :
  Forall (fun e => text e = slice txt (start e) (end_ e))
         (find_entities txt allowed).
Proof.
  apply Forall_forall. intros e Hin.
  apply in_find_entities in Hin. destruct Hin as (kv & _ & He).
  pose proof (hits_of_text txt kv) as H.
  rewrite Forall_forall in H. now apply H.
Qed.

(* ================================================================== *)
(** ** Facts about [apply_sanitization] *)
(* ================================================================== *)

(** In a sorted set of spans of the text, not intersecting means that each
    span ends before the later ones start. *)
Lemma span_set_chain (txt : str) (spans : list EntityHit) :
  Forall (in_text txt) spans -> sorted_by_start spans ->
  non_overlapping spans -> StronglySorted ends_before spans.
Proof.
  unfold sorted_by_start, non_overlapping.
  intros Hin Hs. induction Hs as [|e l Hs IH Hall]; intros Hno;
    [constructor|].
  inversion Hin as [|? ? He Hin']; subst.
  inversion Hno as [|? ? Hno_e Hno']; subst.
  constructor; [now apply IH|].
  apply Forall_forall. intros b Hb.
  rewrite Forall_forall in Hall, Hno_e, Hin'.
  specialize (Hall b Hb). specialize (Hno_e b Hb). specialize (Hin' b Hb).
  unfold le_key in Hall. unfold intersects in Hno_e.
  unfold in_text in He, Hin'. unfold ends_before. lia.
Qed.

Lemma chain_strict (txt : str) (spans : list EntityHit) :
  Forall (in_text txt) spans -> StronglySorted ends_before spans ->
  StronglySorted (fun a b => (start a < start b)%Z) spans.
Proof.
  intros Hin Hc. induction Hc as [|e l Hc IH Hall]; [constructor|].
  inversion Hin as [|? ? He Hin']; subst.
  constructor; [now apply IH|].
  eapply Forall_impl; [|exact Hall].
  unfold ends_before, in_text in *. intros; lia.
Qed.

Lemma slice_to_from (s : str) (i : Z) : slice_to s i ++ slice_from s i = s.
Proof. apply firstn_skipn. Qed.

Lemma len_slice_to (s : str) (i : Z) :
  (0 <= i <= len s)%Z -> len (slice_to s i) = i.
Proof.
  intros H. rewrite slice_to_inside by assumption.
  unfold len in *. rewrite length_firstn. lia.
Qed.

(** Slicing a text that was already rewritten to the right of [j]. *)
Lemma slice_to_prefix (s rest : str) (i j : Z) :
  (0 <= i <= j)%Z -> (j <= len s)%Z ->
  slice_to (slice_to s j ++ rest) i = slice_to s i.
Proof.
  intros Hi Hj.
  pose proof (len_slice_to s j ltac:(lia)) as Hlen.
  rewrite (slice_to_inside (slice_to s j ++ rest))
    by (rewrite len_app; unfold len in *; lia).
  rewrite firstn_app.
  replace (Z.to_nat i - length (slice_to s j)) with 0
    by (unfold len in *; lia).
  rewrite firstn_O, app_nil_r.
  rewrite !slice_to_inside by lia.
  rewrite firstn_firstn. f_equal. lia.
Qed.

Lemma slice_from_prefix (s rest : str) (j : Z) :
  (0 <= j <= len s)%Z -> slice_from (slice_to s j ++ rest) j = rest.
Proof.
  intros Hj.
  pose proof (len_slice_to s j Hj) as Hlen.
  rewrite slice_from_inside by (rewrite len_app; unfold len in *; lia).
  rewrite skipn_app.
  replace (Z.to_nat j - length (slice_to s j)) with 0
    by (unfold len in *; lia).
  rewrite skipn_all2 by (unfold len in *; lia).
  reflexivity.
Qed.

Section Rewrite.
Variables (operator mask_char : str) (mask_len : Z).


(** Rewriting from the last span to the first leaves the text before
    [cursor] as it was and builds the reference from [cursor] on. *)
Lemma rewrite_backwards (txt : str) (spans : list EntityHit) :
  Forall (in_text txt) spans -> StronglySorted ends_before spans ->
  forall cursor,
    (0 <= cursor)%Z -> Forall (fun e => (cursor <= start e)%Z) spans ->
    fold_right (fun e acc => rewrite_one operator mask_char mask_len acc e)
               txt spans
    = slice_to txt cursor
      ++ reference_from (replacement operator mask_char mask_len)
                        txt cursor spans.
Proof.
  intros Hin Hc. induction Hc as [|e l Hc IH Hall];
    intros cursor H0 Hcur; simpl.
  - symmetry. apply slice_to_from.
  - inversion Hin as [|? ? He Hin']; subst.
    inversion Hcur as [|? ? Hce _]; subst.
    destruct He as (Hs0 & Hse & Hel).
    rewrite (IH Hin' (end_ e)) by (try lia; exact Hall).
    unfold rewrite_one.
    rewrite slice_to_prefix, slice_from_prefix by lia.
    rewrite <- (slice_to_slice txt cursor (start e)) by lia.
    rewrite <- app_assoc. reflexivity.
Qed.

Lemma apply_sanitization_reference (txt : str) (spans : list EntityHit) :
  Forall (in_text txt) spans -> StronglySorted ends_before spans ->
  apply_sanitization txt spans operator mask_char mask_len
  = reference txt spans operator mask_char mask_len.
Proof.
  intros Hin Hc. unfold apply_sanitization, reference.
  rewrite (sorted_reverse_rev _ _ _ (chain_strict txt spans Hin Hc)).
  rewrite <- (rev_involutive spans) at 2.
  rewrite <- fold_left_rev_right, rev_involutive.
  rewrite (rewrite_backwards txt spans Hin Hc 0).
  - rewrite slice_to_inside by (unfold len; lia). reflexivity.
  - lia.
  - eapply Forall_impl; [|exact Hin]. unfold in_text. intros; lia.
Qed.

End Rewrite.

Lemma len_slice_from (s : str) (i : Z) :
  (0 <= i <= len s)%Z -> len (slice_from s i) = (len s - i)%Z.
Proof.
  intros H. rewrite slice_from_inside by assumption.
  unfold len in *. rewrite length_skipn. lia.
Qed.

Lemma len_slice (s : str) (i j : Z) :
  (0 <= i <= j)%Z -> (j <= len s)%Z -> len (slice s i j) = (j - i)%Z.
Proof.
  intros Hi Hj. rewrite slice_inside by assumption.
  unfold len in *. rewrite length_firstn, length_skipn. lia.
Qed.

Lemma len_mul (s : str) (n : Z) : len (mul s n) = (len s * Z.max 0 n)%Z.
Proof. unfold len. rewrite mul_length. lia. Qed.

Lemma replacement_mask (mask_char : str) (mask_len : Z) (e : EntityHit) :
  replacement (lit "mask") mask_char mask_len e = mul mask_char mask_len.
Proof. reflexivity. Qed.

(** The length of the reference under [mask]: what lies outside the spans,
    and one mask per span. *)
Lemma reference_mask_length (txt mask_char : str) (mask_len : Z)
  (spans : list EntityHit) :
  Forall (in_text txt) spans -> StronglySorted ends_before spans ->
  forall cursor,
    (0 <= cursor <= len txt)%Z ->
    Forall (fun e => (cursor <= start e)%Z) spans ->
    len (reference_from (replacement (lit "mask") mask_char mask_len)
                        txt cursor spans)
    = (len txt - cursor - covered spans
       + Z.of_nat (length spans) * (len mask_char * Z.max 0 mask_len))%Z.
Proof.
  intros Hin Hc. induction Hc as [|e l Hc IH Hall];
    intros cursor Hcur Hfrom.
  - simpl. rewrite len_slice_from by assumption. lia.
  - inversion Hin as [|? ? He Hin']; subst.
    inversion Hfrom as [|? ? Hce _]; subst.
    destruct He as (Hs0 & Hse & Hel).
    cbn [reference_from covered fold_right length].
    rewrite !len_app, len_slice, replacement_mask, len_mul by lia.
    rewrite (IH Hin' (end_ e)) by (try lia; exact Hall).
    fold (covered l). lia.
Qed.

(* ================================================================== *)
(** ** The endpoints *)
(* ================================================================== *)

Lemma require_roles_elevated (user : User) :
  has_role elevated user = true ->
  require_roles elevated user = Returned user.
Proof. intros H. unfold require_roles. now rewrite H. Qed.

Lemma require_roles_refused (user : User) :
  has_role elevated user = false ->
  require_roles elevated user
  = Raised (HTTPException 403 (lit "Insufficient role")).
Proof. intros H. unfold require_roles. now rewrite H. Qed.

(** Whatever is not ["mask"] is handled as ["replace"]. *)
Lemma replacement_default (operator mask_char : str) (mask_len : Z) :
  str_eqb operator (lit "mask") = false ->
  replacement operator mask_char mask_len
  = replacement (lit "replace") mask_char mask_len.
Proof. intros H. unfold replacement. rewrite H. reflexivity. Qed.

(** C1. For every text and every configuration, the [redacted_text] of a
    preview equals the [sanitized_text] of an apply, and the [entities] of
    the preview equal the [entities_applied] of the apply; a caller the
    role check refuses gets the same error from both. *)
Theorem preview_apply_agree
  (ndiff : list str -> list str -> list str)
  (req : PreviewRequest) (user : User) :
  match sanitize_preview ndiff req user, sanitize_apply req user with
  | Returned p, Returned a =>
      redacted_text p = sanitized_text a /\ entities p = entities_applied a
  | Raised e, Raised e' => e = e'
  | _, _ => False
  end.
Proof.
  unfold sanitize_preview, sanitize_apply.
  destruct (require_roles elevated user) as [u|e]; simpl.
  - split; reflexivity.
  - reflexivity.
Qed.

(** C10. Detection with the empty list as allow-list returns the same span
    set as detection without an allow-list: the empty list counts as
    absent, so every registered pattern applies. *)
Theorem empty_allow_list_as_absent (txt : str) :
  find_entities txt (Some []) = find_entities txt None
  /\ active_patterns (Some []) = PATTERNS
  /\ Permutation (candidates txt PATTERNS) (find_entities txt (Some [])).
Proof.
  split; [reflexivity|].
  split; [reflexivity|].
  change (find_entities txt (Some []))
    with (Py.sorted start (candidates txt PATTERNS)).
  apply sorted_perm.
Qed.

(** C7. With a non-empty allow-list, every span of the detection result has
    an entity type of the allow-list, whatever the other patterns match. *)
Theorem allow_list_filtering (txt : str) (allowed : list str)
  (e : EntityHit) :
  allowed <> [] ->
  In e (find_entities txt (Some allowed)) ->
  In (entity_type e) allowed.
Proof.
  intros Hne Hin. apply in_find_entities in Hin.
  destruct Hin as (kv & Hkv & He).
  unfold active_patterns in Hkv.
  destruct allowed as [|k ks]; [congruence|]. simpl falsy in Hkv. cbv iota in Hkv.
  apply filter_In in Hkv. destruct Hkv as (_ & Hmem).
  apply mem_In in Hmem.
  pose proof (hits_of_type txt kv) as Hty.
  rewrite Forall_forall in Hty. rewrite (Hty e He). exact Hmem.
Qed.

Lemma allow_list_filtering_witness :
  In (entity_type (hit "EMAIL" 0 7 "a@b.com")) [lit "EMAIL"].
Proof.
  apply (allow_list_filtering (lit "a@b.com or 555-123-4567")
                              [lit "EMAIL"]).
  - discriminate.
  - vm_compute. left. reflexivity.
Defined.

(** C8, as stated, fails for the empty allow-list: it counts as absent, so
    the e-mail address is detected and rewritten. *)
Lemma empty_allow_list_detects :
  (forall k, In k [] -> ~ In k (map fst PATTERNS))
  /\ find_entities (lit "a@b.com") (Some []) = [hit "EMAIL" 0 7 "a@b.com"]
  /\ find_entities (lit "a@b.com") (Some []) <> []
  /\ apply_sanitization (lit "a@b.com")
       (find_entities (lit "a@b.com") (Some []))
       (lit "replace") (lit "*") 6 <> lit "a@b.com".
Proof.
  split; [intros k []|].
  split; [vm_compute; reflexivity|].
  split; vm_compute; discriminate.
Qed.

(** C8, amended. If the allow-list is not empty and names no registered
    entity type, detection returns the empty span set and the rewritten
    text is the input text. *)
Theorem unregistered_allow_list (txt : str) (allowed : list str)
  (operator mask_char : str) (mask_len : Z) :
  allowed <> [] ->
  (forall k, In k allowed -> ~ In k (map fst PATTERNS)) ->
  find_entities txt (Some allowed) = []
  /\ apply_sanitization txt (find_entities txt (Some allowed))
       operator mask_char mask_len = txt.
Proof.
  intros Hne Hnone.
  assert (Hact : active_patterns (Some allowed) = []).
  { unfold active_patterns. destruct allowed as [|k ks]; [congruence|].
    simpl falsy. cbv iota. apply filter_none.
    apply Forall_forall. intros kv Hkv.
    destruct (mem (fst kv) (k :: ks)) eqn:Hmem; [|reflexivity].
    apply mem_In in Hmem. exfalso. apply (Hnone _ Hmem).
    now apply in_map. }
  assert (Hfind : find_entities txt (Some allowed) = []).
  { unfold find_entities. rewrite Hact. reflexivity. }
  split; [exact Hfind|]. rewrite Hfind. reflexivity.
Qed.

Lemma unregistered_allow_list_witness :
  find_entities (lit "a@b.com") (Some [lit "PASSPORT"]) = []
  /\ apply_sanitization (lit "a@b.com")
       (find_entities (lit "a@b.com") (Some [lit "PASSPORT"]))
       (lit "replace") (lit "*") 6 = lit "a@b.com".
Proof.
  apply unregistered_allow_list.
  - discriminate.
  - intros k [<-|[]]. vm_compute.
    intros H; repeat (destruct H as [H|H]; [discriminate H|]); exact H.
Defined.


Lemma apply_sanitization_default (txt : str) (spans : list EntityHit)
  (operator mask_char : str) (mask_len : Z) :
  str_eqb operator (lit "mask") = false ->
  apply_sanitization txt spans operator mask_char mask_len
  = apply_sanitization txt spans (lit "replace") mask_char mask_len.
Proof.
  intros H. unfold apply_sanitization, rewrite_one.
  rewrite (replacement_default operator mask_char mask_len H). reflexivity.
Qed.



(* ================================================================== *)
(** ** Detection *)
(* ================================================================== *)

(** C2, as stated, fails: a run of ten digits before an [@] is matched by
    the e-mail pattern and by the phone pattern, and both spans are
    returned although they intersect. *)
Lemma find_entities_overlap :
  find_entities (lit "1234567890@b.co") None
  = [hit "EMAIL" 0 15 "1234567890@b.co"; hit "PHONE" 0 10 "1234567890"]
  /\ ~ (non_overlapping (find_entities (lit "1234567890@b.co") None)
        /\ sorted_by_start (find_entities (lit "1234567890@b.co") None)).
Proof.
  assert (E : find_entities (lit "1234567890@b.co") None
              = [hit "EMAIL" 0 15 "1234567890@b.co";
                 hit "PHONE" 0 10 "1234567890"])
    by (vm_compute; reflexivity).
  split; [exact E|]. rewrite E. intros [Hno _].
  inversion Hno as [|? ? Hhead _]; subst.
  inversion Hhead as [|? ? Hpair _]; subst.
  apply Hpair. unfold intersects. simpl. lia.
Qed.

(** C2, amended. For every text and every allow-list the spans returned by
    detection are sorted ascending by start and lie in the text with
    [0 <= start < end <= len(text)], and no two spans of the same entity
    type intersect. *)
Theorem find_entities_sorted (txt : str) (allowed : option (list str)) :
  sorted_by_start (find_entities txt allowed)
  /\ Forall (in_text txt) (find_entities txt allowed)
  /\ ForallOrdPairs
       (fun a b => entity_type a = entity_type b -> ~ intersects a b)
       (find_entities txt allowed).
Proof.
  split; [apply sorted_sorted|].
  split; [apply find_entities_in_text|].
  pose proof (find_entities_same_type txt allowed) as H.
  induction H as [|a l Ha _ IH]; constructor; [|exact IH].
  eapply Forall_impl; [|exact Ha]. unfold intersects.
  intros b Hab Hty [_ Hlt]. specialize (Hab Hty). lia.
Qed.

(** C3, as stated, fails: the key that is also a well-formed mail address
    yields two candidates starting at 0; the resolution the specification
    describes keeps the longer one only, the detector returns both. *)
Lemma find_entities_keeps_overlaps :
  find_entities (lit "sk-ABCDEFGHIJKLMNOP@x.io") None
  = [hit "EMAIL" 0 24 "sk-ABCDEFGHIJKLMNOP@x.io";
     hit "OPENAI_KEY" 0 19 "sk-ABCDEFGHIJKLMNOP"]
  /\ spec_resolve (candidates (lit "sk-ABCDEFGHIJKLMNOP@x.io")
                              (active_patterns None))
     = [hit "EMAIL" 0 24 "sk-ABCDEFGHIJKLMNOP@x.io"]
  /\ find_entities (lit "sk-ABCDEFGHIJKLMNOP@x.io") None
     <> spec_resolve (candidates (lit "sk-ABCDEFGHIJKLMNOP@x.io")
                                 (active_patterns None)).
Proof.
  split; [vm_compute; reflexivity|].
  split; [vm_compute; reflexivity|].
  vm_compute. discriminate.
Qed.

(** C3, amended. For every text the detector sorts the candidate matches by
    start ascending only, with a stable sort, and keeps every one of them:
    the result is a rearrangement of the candidates, ascending by start,
    in which candidates of equal start keep the order they were found in;
    none is discarded and none is merged. *)
Theorem find_entities_keeps_all (txt : str) (allowed : option (list str)) :
  Permutation (candidates txt (active_patterns allowed))
              (find_entities txt allowed)
  /\ sorted_by_start (find_entities txt allowed)
  /\ forall k,
       filter (fun e => (start e =? k)%Z) (find_entities txt allowed)
       = filter (fun e => (start e =? k)%Z)
                (candidates txt (active_patterns allowed)).
Proof.
  split; [apply sorted_perm|].
  split; [apply sorted_sorted|].
  intros k. apply sorted_stable.
Qed.

(* ================================================================== *)
(** ** Rewriting *)
(* ================================================================== *)

(** C4. For every text and every set of spans of it that is sorted
    ascending and non-overlapping, rewriting the spans one at a time in
    descending start order gives the same string as the reference that
    substitutes all spans at once against the original offsets; spans that
    abut are included. *)
Theorem offset_safety (txt : str) (spans : list EntityHit)
  (operator mask_char : str) (mask_len : Z) :
  Forall (in_text txt) spans ->
  sorted_by_start spans ->
  non_overlapping spans ->
  apply_sanitization txt spans operator mask_char mask_len
  = reference txt spans operator mask_char mask_len.
Proof.
  intros Hin Hs Hno.
  apply apply_sanitization_reference; [exact Hin|].
  now apply (span_set_chain txt).
Qed.

(** Detection and rewriting together: whenever the spans detected in a text
    do not intersect, the endpoint's rewriting is the reference. *)
Lemma detected_spans_offset_safe (txt : str) (allowed : option (list str))
  (operator mask_char : str) (mask_len : Z) :
  non_overlapping (find_entities txt allowed) ->
  apply_sanitization txt (find_entities txt allowed)
    operator mask_char mask_len
  = reference txt (find_entities txt allowed) operator mask_char mask_len.
Proof.
  intros Hno. apply apply_sanitization_reference.
  - apply find_entities_in_text.
  - apply (span_set_chain txt);
      [apply find_entities_in_text | apply sorted_sorted | exact Hno].
Qed.

(** The invariant [start < end] is needed: two empty spans at one offset
    are rewritten in the order they stand in, the reference in the other. *)
Example empty_spans_swap :
  apply_sanitization (lit "abcd") [hit "SSN" 2 2 ""; hit "PHONE" 2 2 ""]
    (lit "replace") (lit "*") 6 = lit "ab<PHONE><SSN>cd"
  /\ reference (lit "abcd") [hit "SSN" 2 2 ""; hit "PHONE" 2 2 ""]
       (lit "replace") (lit "*") 6 = lit "ab<SSN><PHONE>cd".
Proof. split; vm_compute; reflexivity. Qed.

Lemma offset_safety_witness :
  apply_sanitization (lit "abcdefg")
    [hit "SSN" 1 3 "bc"; hit "PHONE" 3 6 "def"] (lit "replace") (lit "*") 6
  = reference (lit "abcdefg")
      [hit "SSN" 1 3 "bc"; hit "PHONE" 3 6 "def"] (lit "replace") (lit "*") 6.
Proof.
  apply offset_safety.
  - repeat apply Forall_cons; try apply Forall_nil;
      unfold in_text; vm_compute; repeat split; discriminate.
  - repeat apply SSorted_cons; try apply SSorted_nil;
      repeat apply Forall_cons; try apply Forall_nil;
      unfold le_key; simpl; lia.
  - repeat apply FOP_cons; try apply FOP_nil;
      repeat apply Forall_cons; try apply Forall_nil.
    unfold intersects. simpl. lia.
Defined.

(** C5, as stated, fails: [mask_char] is a string, and a mask of two
    characters repeated three times puts six characters in the output;
    and where two detected spans intersect, the second rewrite eats the
    mask of the first, so the two spans leave six characters, not twelve. *)
Lemma mask_width_two_characters :
  apply_sanitization (lit "a@b.com") (find_entities (lit "a@b.com") None)
    (lit "mask") (lit "ab") 3 = lit "ababab"
  /\ len (replacement (lit "mask") (lit "ab") 3 (hit "EMAIL" 0 7 "a@b.com"))
     <> 3%Z
  /\ apply_sanitization (lit "1234567890@b.co")
       (find_entities (lit "1234567890@b.co") None)
       (lit "mask") (lit "*") 6 = lit "******".
Proof.
  split; [vm_compute; reflexivity|].
  split; [vm_compute; discriminate | vm_compute; reflexivity].
Qed.

(** C5, amended. Under the operator ["mask"] every span is replaced by
    [mask_char] repeated [mask_len] times (no copy when [mask_len] is
    negative), whatever the span's own length: in a sorted, non-overlapping
    span set each span contributes [len(mask_char) * max(mask_len, 0)]
    characters to the output, which is [mask_len] characters when
    [mask_char] is one character and [mask_len] is not negative. *)
Theorem mask_width (txt : str) (spans : list EntityHit)
  (mask_char : str) (mask_len : Z) :
  Forall (in_text txt) spans ->
  sorted_by_start spans ->
  non_overlapping spans ->
  (forall e, replacement (lit "mask") mask_char mask_len e
             = mul mask_char mask_len)
  /\ len (mul mask_char mask_len) = (len mask_char * Z.max 0 mask_len)%Z
  /\ len (apply_sanitization txt spans (lit "mask") mask_char mask_len)
     = (len txt - covered spans
        + Z.of_nat (length spans) * (len mask_char * Z.max 0 mask_len))%Z
  /\ (len mask_char = 1%Z -> (0 <= mask_len)%Z ->
      len (mul mask_char mask_len) = mask_len).
Proof.
  intros Hin Hs Hno.
  split; [intros e; apply replacement_mask|].
  split; [apply len_mul|].
  split.
  - rewrite (apply_sanitization_reference _ _ _ txt spans Hin
               (span_set_chain txt spans Hin Hs Hno)).
    unfold reference.
    rewrite (reference_mask_length txt mask_char mask_len spans Hin
               (span_set_chain txt spans Hin Hs Hno) 0).
    + lia.
    + unfold len; lia.
    + eapply Forall_impl; [|exact Hin]. unfold in_text. intros; lia.
  - intros H1 H0. rewrite len_mul, H1. lia.
Qed.

Lemma mask_width_witness :
  len (apply_sanitization (lit "abcdefg")
         [hit "SSN" 1 3 "bc"; hit "PHONE" 3 6 "def"]
         (lit "mask") (lit "*") 4)
  = (7 - 5 + 2 * (1 * 4))%Z.
Proof.
  refine (proj1 (proj2 (proj2
    (mask_width (lit "abcdefg")
       [hit "SSN" 1 3 "bc"; hit "PHONE" 3 6 "def"] (lit "*") 4 _ _ _)))).
  - repeat apply Forall_cons; try apply Forall_nil;
      unfold in_text; vm_compute; repeat split; discriminate.
  - repeat apply SSorted_cons; try apply SSorted_nil;
      repeat apply Forall_cons; try apply Forall_nil;
      unfold le_key; simpl; lia.
  - repeat apply FOP_cons; try apply FOP_nil;
      repeat apply Forall_cons; try apply Forall_nil.
    unfold intersects. simpl. lia.
Defined.



(* ================================================================== *)
(** ** Authentication *)
(* ================================================================== *)

Lemma partition_spec (sep : ascii) (s before rest : str) :
  partition sep s = Some (before, rest) ->
  s = before ++ sep :: rest /\ ~ In sep before.
Proof.
  revert before rest; induction s as [|c s IH]; intros before rest; simpl;
    [discriminate|].
  destruct (Ascii.eqb_spec c sep) as [->|Hne].
  - intros [= <- <-]. split; [reflexivity | intros []].
  - destruct (partition sep s) as [[b r]|]; [|discriminate].
    intros [= <- <-]. destruct (IH b r eq_refl) as [-> Hnin].
    split; [reflexivity|]. intros [Heq|Hin]; [congruence | tauto].
Qed.

(** The first occurrence decides: a separator-free head is cut off whole. *)
Lemma partition_app (sep : ascii) (before rest : str) :
  ~ In sep before -> partition sep (before ++ sep :: rest) = Some (before, rest).
Proof.
  induction before as [|c before IH]; intros Hnin; simpl.
  - now rewrite Ascii.eqb_refl.
  - destruct (Ascii.eqb_spec c sep) as [->|Hne]; [exfalso; apply Hnin; now left|].
    rewrite IH; [reflexivity|]. intros Hin. apply Hnin. now right.
Qed.

Lemma startswith_spec (s prefix : str) :
  startswith s prefix = true <-> exists rest, s = prefix ++ rest.
Proof.
  revert s; induction prefix as [|p prefix IH]; intros s; simpl.
  - split; [intros _; now exists s | intros _; now destruct s].
  - destruct s as [|c s]; simpl.
    + split; [discriminate | intros (rest & H); discriminate H].
    + rewrite andb_true_iff, Ascii.eqb_eq, IH. split.
      * intros [-> (rest & ->)]. now exists rest.
      * intros (rest & [= -> ->]). split; [reflexivity | now exists rest].
Qed.

Lemma lower_char_space (c : ascii) :
  lower_char c = " "%char <-> c = " "%char.
Proof.
  split; [|intros ->; reflexivity].
  destruct c as [[] [] [] [] [] [] [] []]; vm_compute; congruence.
Qed.

Lemma lower_app (a b : str) : lower (a ++ b) = lower a ++ lower b.
Proof. apply map_app. Qed.

(** A header that passes the test of [get_current_user] is a six letter
    scheme without a space, one space, and the rest. *)
Lemma bearer_header_shape (a : str) :
  startswith (lower a) (lit "bearer ") = true ->
  exists scheme token,
    a = scheme ++ " "%char :: token
    /\ lower scheme = lit "bearer" /\ ~ In " "%char scheme.
Proof.
  intros H. apply startswith_spec in H. destruct H as (rest & H).
  destruct a as [|c1 [|c2 [|c3 [|c4 [|c5 [|c6 [|c7 token]]]]]]];
    try discriminate H.
  injection H as H1 H2 H3 H4 H5 H6 H7 _.
  apply (proj1 (lower_char_space c7)) in H7. subst c7.
  exists [c1; c2; c3; c4; c5; c6], token.
  split; [reflexivity|]. split.
  - unfold lower. simpl. now rewrite H1, H2, H3, H4, H5, H6.
  - intros Hin. simpl in Hin.
    repeat (destruct Hin as [Hin|Hin];
            [subst; vm_compute in H1, H2, H3, H4, H5, H6; congruence|]).
    exact Hin.
Qed.

Lemma bearer_header_accepted (scheme token : str) :
  lower scheme = lit "bearer" ->
  startswith (lower (scheme ++ " "%char :: token)) (lit "bearer ") = true
  /\ ~ In " "%char scheme.
Proof.
  intros Hs. split.
  - apply startswith_spec. exists (lower token).
    rewrite lower_app, Hs. reflexivity.
  - intros Hin. apply (in_map lower_char) in Hin.
    fold (lower scheme) in Hin. rewrite Hs in Hin.
    change (lower_char " ") with " "%char in Hin. simpl in Hin.
    repeat (destruct Hin as [Hin|Hin]; [discriminate Hin|]). exact Hin.
Qed.

(** The token of a header with the bearer scheme is all that follows the
    first space. *)
Lemma split1_bearer (scheme token : str) :
  ~ In " "%char scheme ->
  nth_error (split1 " " (scheme ++ " "%char :: token)) 1 = Some token.
Proof.
  intros Hnin. unfold split1. now rewrite partition_app.
Qed.

(** What [get_current_user] does with the token once it is cut out. *)
Lemma get_current_user_bearer (decode : str -> option Payload)
  (scheme token : str) :
  lower scheme = lit "bearer" ->
  get_current_user decode (Some (scheme ++ " "%char :: token))
  = match decode token with
    | None => inr (Http (HTTPException 401 (lit "Invalid token")))
    | Some payload =>
        match sub payload with
        | Some (c :: email') =>
            inl {| email := c :: email';
                   roles := match roles_claim payload with
                            | Some r => r
                            | None => []
                            end |}
        | _ => inr (Http (HTTPException 401 (lit "Invalid token (sub)")))
        end
    end.
Proof.
  intros Hs. destruct (bearer_header_accepted scheme token Hs) as [Hok Hnin].
  unfold get_current_user. rewrite Hok, (split1_bearer _ _ Hnin).
  destruct scheme; [discriminate Hs|]. reflexivity.
Qed.

(** Whatever [get_current_user] raises is an [HTTPException] of status
    401. *)
Lemma get_current_user_401 (decode : str -> option Payload)
  (authorization : option str) (e : raised) :
  get_current_user decode authorization = inr e ->
  exists detail, e = Http (HTTPException 401 detail).
Proof.
  destruct authorization as [a|]; [|intros [= <-]; eauto].
  destruct (startswith (lower a) (lit "bearer ")) eqn:Hstart.
  - destruct (bearer_header_shape a Hstart) as (scheme & token & -> & Hs & _).
    intros H.
    pose proof (eq_trans (eq_sym H)
                  (get_current_user_bearer decode scheme token Hs)) as E.
    destruct (decode token) as [payload|]; [|inversion E; eauto].
    destruct (sub payload) as [[|c email']|];
      try discriminate E; inversion E; eauto.
  - unfold get_current_user. rewrite Hstart, orb_true_r.
    intros [= <-]. eauto.
Qed.



(** X2. The scheme of the header is matched without regard to case, and
    the token handed to the decoder is everything after the first space,
    further spaces included: a header [scheme + " " + token] whose scheme
    lowers to ["bearer"] yields the user of the claims [token] decodes to,
    with [roles] defaulting to the empty list. *)
Theorem bearer_round_trip (decode : str -> option Payload)
  (scheme token : str) :
  lower scheme = lit "bearer" ->
  get_current_user decode (Some (scheme ++ " "%char :: token))
  = match decode token with
    | None => inr (Http (HTTPException 401 (lit "Invalid token")))
    | Some payload =>
        match sub payload with
        | Some (c :: email') =>
            inl {| email := c :: email';
                   roles := match roles_claim payload with
                            | Some r => r
                            | None => []
                            end |}
        | _ => inr (Http (HTTPException 401 (lit "Invalid token (sub)")))
        end
    end.
Proof.
  intros Hs. destruct (bearer_header_accepted scheme token Hs) as [Hok Hnin].
  unfold get_current_user. rewrite Hok, (split1_bearer _ _ Hnin).
  destruct scheme; [discriminate Hs|]. reflexivity.
Qed.

Lemma bearer_round_trip_witness :
  get_current_user
    (fun t => if str_eqb t (lit "a b.c")
              then Some {| sub := Some (lit "u@x.org"); roles_claim := None |}
              else None)
    (Some (lit "BeArEr a b.c"))
  = inl {| email := lit "u@x.org"; roles := [] |}.
Proof.
  apply (bearer_round_trip
           (fun t => if str_eqb t (lit "a b.c")
                     then Some {| sub := Some (lit "u@x.org");
                                  roles_claim := None |}
                     else None)
           (lit "BeArEr") (lit "a b.c")).
  reflexivity.
Defined.


(* ================================================================== *)
(** ** More about detection *)
(* ================================================================== *)

Lemma run_cap (ic : bool) (cls : list cset) (h : nat) (s : str) :
  run ic cls (Some h) s <= h.
Proof.
  revert h; induction s as [|c s IH]; intros h; simpl; [lia|].
  destruct h as [|h]; [lia|].
  destruct (in_class ic cls c); [|lia].
  simpl. specialize (IH h). lia.
Qed.

(** The characters a repetition runs over are in its set. *)
Lemma run_in_class (ic : bool) (cls : list cset) (cap : option nat)
  (s : str) :
  Forall (fun c => in_class ic cls c = true) (firstn (run ic cls cap s) s).
Proof.
  revert cap; induction s as [|c s IH]; intros cap; simpl; [constructor|].
  destruct cap as [[|h]|]; try constructor;
    destruct (in_class ic cls c) eqn:Hc; simpl; constructor; auto.
Qed.

Lemma match_at_upper (ic : bool) (p : pattern) (s : str) :
  forall pos e m,
    max_len p = Some m -> match_at ic p s pos = Some e -> e <= pos + m.
Proof.
  induction p as [|[|lo hi cls] rest IH]; intros pos e m; simpl.
  - intros [= <-] [= <-]. lia.
  - intros Hm. destruct (at_boundary s pos); [|discriminate].
    intros H. now apply (IH pos e m).
  - destruct hi as [h|]; [|discriminate].
    destruct (max_len rest) as [m'|]; [|discriminate].
    intros [= <-] H. apply backtrack_some in H.
    destruct H as (n & Hn & Hk).
    pose proof (run_cap ic cls h (skipn pos s)).
    specialize (IH (pos + n) e m' eq_refl Hk). lia.
Qed.

Lemma accepts_cons (ic : bool) (n : node) (p : pattern) (l : str) :
  Forall (fun c => accepts ic p c = true) l ->
  Forall (fun c => accepts ic (n :: p) c = true) l.
Proof.
  apply Forall_impl. intros c Hc. unfold accepts in *. simpl.
  rewrite Hc. apply orb_true_r.
Qed.

Lemma firstn_add (A : Type) (n k : nat) (l : list A) :
  firstn (n + k) l = firstn n l ++ firstn k (skipn n l).
Proof.
  revert l; induction n as [|n IH]; intros l; [reflexivity|].
  destruct l as [|x l]; simpl; [now rewrite firstn_nil|].
  now rewrite IH.
Qed.

Lemma firstn_skipn_split (A : Type) (l : list A) (pos n k : nat) :
  firstn (n + k) (skipn pos l)
  = firstn n (skipn pos l) ++ firstn k (skipn (pos + n) l).
Proof.
  rewrite firstn_add, skipn_skipn. now rewrite (Nat.add_comm pos n).
Qed.

(** Every character of a match is in the set of one of the pattern's
    repetitions. *)
Lemma match_at_accepts (ic : bool) (p : pattern) (s : str) :
  forall pos e,
    pos <= length s -> match_at ic p s pos = Some e ->
    Forall (fun c => accepts ic p c = true) (firstn (e - pos) (skipn pos s)).
Proof.
  induction p as [|[|lo hi cls] rest IH]; intros pos e Hpos H; simpl in H.
  - injection H as <-. rewrite Nat.sub_diag. constructor.
  - destruct (at_boundary s pos); [|discriminate].
    apply accepts_cons. now apply IH.
  - apply backtrack_some in H. destruct H as (n & Hn & Hk).
    pose proof (run_le ic cls hi (skipn pos s)) as Hrun.
    rewrite length_skipn in Hrun.
    assert (Hpn : pos + n <= length s) by lia.
    pose proof (match_at_bounds ic rest s (pos + n) e Hpn Hk) as Hb.
    replace (e - pos) with (n + (e - (pos + n))) by lia.
    rewrite firstn_skipn_split. apply Forall_app. split.
    + pose proof (run_in_class ic cls hi (skipn pos s)) as Hin.
      rewrite <- (firstn_skipn n (firstn _ _)) in Hin.
      apply Forall_app in Hin. destruct Hin as [Hin _].
      rewrite firstn_firstn in Hin.
      replace (Nat.min n (run ic cls hi (skipn pos s))) with n in Hin by lia.
      eapply Forall_impl; [|exact Hin].
      intros c Hc. unfold accepts. simpl. now rewrite Hc.
    + apply accepts_cons. now apply IH.
Qed.

(** What a hit owes to the pattern it comes from. *)
Lemma hits_of_shape (txt : str) (kv : str * pattern) (e : EntityHit) :
  In e (hits_of txt kv) ->
  entity_type e = fst kv
  /\ (0 <= start e <= end_ e)%Z /\ (end_ e <= len txt)%Z
  /\ text e = slice txt (start e) (end_ e)
  /\ len (text e) = (end_ e - start e)%Z
  /\ (Z.of_nat (min_len (snd kv)) <= end_ e - start e)%Z
  /\ (forall m, max_len (snd kv) = Some m ->
                (end_ e - start e <= Z.of_nat m)%Z)
  /\ Forall (fun c => accepts true (snd kv) c = true) (text e).
Proof.
  unfold hits_of, finditer. intros Hin.
  apply in_map_iff in Hin. destruct Hin as ([pos fin] & <- & Hm).
  cbn [entity_type start end_ text fst snd] in *.
  pose proof (scan_bounds true (snd kv) txt (S (length txt)) 0) as Hb.
  rewrite Forall_forall in Hb. specialize (Hb _ Hm). simpl in Hb.
  assert (Hmatch : match_at true (snd kv) txt pos = Some fin).
  { clear Hb. revert Hm. generalize 0 at 1. generalize (S (length txt)).
    induction n as [|n IH]; intros from; simpl; [intros []|].
    destruct (length txt <? from); [intros []|].
    destruct (match_at true (snd kv) txt from) as [e'|] eqn:E.
    - intros [[= <- <-]|Hin]; [exact E | exact (IH _ Hin)].
    - apply IH. }
  assert (Hslice : slice txt (Z.of_nat pos) (Z.of_nat fin)
                   = firstn (fin - pos) (skipn pos txt)).
  { rewrite slice_inside by (unfold len; lia).
    now rewrite !Nat2Z.id. }
  split; [reflexivity|]. split; [lia|]. split; [unfold len; lia|].
  split; [reflexivity|].
  split; [rewrite len_slice by (unfold len; lia); lia|].
  split; [lia|]. split.
  - intros m Hmax.
    pose proof (match_at_upper true (snd kv) txt pos fin m Hmax Hmatch). lia.
  - rewrite Hslice. apply match_at_accepts; [lia | exact Hmatch].
Qed.

Lemma find_entities_shape (txt : str) (allowed : option (list str))
  (e : EntityHit) :
  In e (find_entities txt allowed) ->
  exists kv, In kv PATTERNS /\ In e (hits_of txt kv).
Proof.
  intros Hin. apply in_find_entities in Hin.
  destruct Hin as (kv & Hkv & He). exists kv.
  split; [now apply (active_patterns_incl allowed) | exact He].
Qed.

(** X4. The length of a detected span is bounded by its entity type: an
    EMAIL span has at least 6 characters, a PHONE span 10 to 12, an SSN
    span 11, a CREDIT_CARD span 16 to 19, a DNI_ES span 9, an IBAN_ES span
    24 and an OPENAI_KEY span at least 13; the [text] of the span has
    exactly [end - start] characters. *)
Theorem span_lengths (txt : str) (allowed : option (list str))
  (e : EntityHit) :
  In e (find_entities txt allowed) ->
  len (text e) = (end_ e - start e)%Z
  /\ ((entity_type e = lit "EMAIL" /\ (6 <= end_ e - start e)%Z)
      \/ (entity_type e = lit "PHONE" /\ (10 <= end_ e - start e <= 12)%Z)
      \/ (entity_type e = lit "SSN" /\ (end_ e - start e = 11)%Z)
      \/ (entity_type e = lit "CREDIT_CARD"
          /\ (16 <= end_ e - start e <= 19)%Z)
      \/ (entity_type e = lit "DNI_ES" /\ (end_ e - start e = 9)%Z)
      \/ (entity_type e = lit "IBAN_ES" /\ (end_ e - start e = 24)%Z)
      \/ (entity_type e = lit "OPENAI_KEY" /\ (13 <= end_ e - start e)%Z)).
Proof.
  intros Hin. destruct (find_entities_shape txt allowed e Hin)
    as (kv & HP & He).
  destruct (hits_of_shape txt kv e He)
    as (Hty & _ & _ & _ & Hlen & Hmin & Hmax & _).
  split; [exact Hlen|].
  simpl in HP.
  destruct HP as [<-|[<-|[<-|[<-|[<-|[<-|[<-|[]]]]]]]];
    cbn [fst snd] in *;
    [ left | right; left | do 2 right; left | do 3 right; left
    | do 4 right; left | do 5 right; left | do 6 right ];
    (split; [exact Hty|]);
    try (specialize (Hmax _ eq_refl));
    revert Hmin; try revert Hmax; vm_compute min_len; simpl Z.of_nat; lia.
Qed.

Lemma span_lengths_witness :
  len (text (hit "PHONE" 8 20 "555-123-4567")) = (20 - 8)%Z.
Proof.
  apply (span_lengths (lit "a@b.com 555-123-4567") None
                      (hit "PHONE" 8 20 "555-123-4567")).
  vm_compute. right. left. reflexivity.
Defined.

Lemma phone_alphabet (c : ascii) :
  accepts true [WordBoundary; Exactly 3 [Digit];
                Optional [Chr "-"; Chr "."]; Exactly 3 [Digit];
                Optional [Chr "-"; Chr "."]; Exactly 4 [Digit];
                WordBoundary] c = true ->
  is_digit c || Ascii.eqb c "-" || Ascii.eqb c "." = true.
Proof.
  destruct c as [[] [] [] [] [] [] [] []]; vm_compute; congruence.
Qed.

Lemma ssn_alphabet (c : ascii) :
  accepts true [WordBoundary; Exactly 3 [Digit]; Lit "-"; Exactly 2 [Digit];
                Lit "-"; Exactly 4 [Digit]; WordBoundary] c = true ->
  is_digit c || Ascii.eqb c "-" = true.
Proof.
  destruct c as [[] [] [] [] [] [] [] []]; vm_compute; congruence.
Qed.

Lemma card_alphabet (c : ascii) :
  accepts true [WordBoundary;
                Exactly 4 [Digit]; Optional [Chr "-"; Space];
                Exactly 4 [Digit]; Optional [Chr "-"; Space];
                Exactly 4 [Digit]; Optional [Chr "-"; Space];
                Exactly 4 [Digit]; WordBoundary] c = true ->
  is_digit c || Ascii.eqb c "-" || is_space c = true.
Proof.
  destruct c as [[] [] [] [] [] [] [] []]; vm_compute; congruence.
Qed.

(** X5. Every character of a detected span is in one of the character sets
    of the pattern registered for the span's entity type.  So a PHONE span
    holds only digits, hyphens and dots, an SSN span only digits and
    hyphens, and a CREDIT_CARD span only digits, hyphens and white
    space. *)
Theorem span_characters (txt : str) (allowed : option (list str))
  (e : EntityHit) :
  In e (find_entities txt allowed) ->
  (exists p, In (entity_type e, p) PATTERNS
             /\ Forall (fun c => accepts true p c = true) (text e))
  /\ (entity_type e = lit "PHONE" ->
      Forall (fun c => is_digit c || Ascii.eqb c "-" || Ascii.eqb c "."
                       = true) (text e))
  /\ (entity_type e = lit "SSN" ->
      Forall (fun c => is_digit c || Ascii.eqb c "-" = true) (text e))
  /\ (entity_type e = lit "CREDIT_CARD" ->
      Forall (fun c => is_digit c || Ascii.eqb c "-" || is_space c = true)
             (text e)).
Proof.
  intros Hin. destruct (find_entities_shape txt allowed e Hin)
    as (kv & HP & He).
  destruct (hits_of_shape txt kv e He)
    as (Hty & _ & _ & _ & _ & _ & _ & Hacc).
  split.
  - exists (snd kv). rewrite Hty. split; [now destruct kv | exact Hacc].
  - simpl in HP.
    destruct HP as [<-|[<-|[<-|[<-|[<-|[<-|[<-|[]]]]]]]];
      cbn [fst snd] in *; rewrite Hty;
      (split; [intros T|split; intros T]); try discriminate T;
      (eapply Forall_impl; [|exact Hacc]);
      first [exact phone_alphabet | exact ssn_alphabet
            | exact card_alphabet].
Qed.

Lemma span_characters_witness :
  Forall (fun c => is_digit c || Ascii.eqb c "-" || Ascii.eqb c "." = true)
         (text (hit "PHONE" 8 20 "555-123-4567")).
Proof.
  refine (proj1 (proj2
    (span_characters (lit "a@b.com 555-123-4567") None
                     (hit "PHONE" 8 20 "555-123-4567") _)) eq_refl).
  vm_compute. right. left. reflexivity.
Defined.

(** X6. A text of fewer than six characters holds no span, for any
    allow-list, and is returned as it is under any operator: the shortest
    match any registered pattern admits has six characters. *)
Theorem short_text_untouched (txt : str) (allowed : option (list str))
  (operator mask_char : str) (mask_len : Z) :
  length txt < 6 ->
  find_entities txt allowed = []
  /\ apply_sanitization txt (find_entities txt allowed)
       operator mask_char mask_len = txt.
Proof.
  intros Hshort.
  assert (Hnone : find_entities txt allowed = []).
  { destruct (find_entities txt allowed) as [|e l] eqn:E; [reflexivity|].
    exfalso.
    assert (Hin : In e (find_entities txt allowed)) by (rewrite E; now left).
    destruct (find_entities_shape txt allowed e Hin) as (kv & HP & He).
    destruct (hits_of_shape txt kv e He)
      as (_ & Hs & Hend & _ & _ & Hmin & _).
    assert (H6 : 6 <= min_len (snd kv)).
    { simpl in HP.
      destruct HP as [<-|[<-|[<-|[<-|[<-|[<-|[<-|[]]]]]]]];
        vm_compute; repeat constructor. }
    unfold len in Hend. lia. }
  split; [exact Hnone|]. rewrite Hnone. reflexivity.
Qed.

Lemma short_text_untouched_witness :
  find_entities (lit "a@b.c") None = []
  /\ apply_sanitization (lit "a@b.c") (find_entities (lit "a@b.c") None)
       (lit "replace") (lit "*") 6 = lit "a@b.c".
Proof.
  apply short_text_untouched. vm_compute. repeat constructor.
Defined.

(** Selecting candidates by entity type is selecting patterns by key. *)
Lemma filter_candidates (txt : str) (allowed : list str)
  (ps : list (str * pattern)) :
  filter (fun e => mem (entity_type e) allowed) (candidates txt ps)
  = candidates txt (filter (fun kv => mem (fst kv) allowed) ps).
Proof.
  induction ps as [|kv ps IH]; [reflexivity|].
  unfold candidates in *. simpl. rewrite filter_app, IH.
  destruct (mem (fst kv) allowed) eqn:Hmem; simpl.
  - f_equal. apply filter_all. eapply Forall_impl; [|apply hits_of_type].
    intros e ->. exact Hmem.
  - rewrite filter_none; [reflexivity|].
    eapply Forall_impl; [|apply hits_of_type].
    intros e ->. exact Hmem.
Qed.

(** X7. A non-empty allow-list only removes spans: detection with the
    allow-list returns the spans of the unrestricted detection whose entity
    type is listed, unchanged and in the same order.  Restricting the
    patterns before matching and filtering the spans afterwards are the
    same. *)
Theorem allow_list_is_post_filter (txt : str) (k : str) (ks : list str) :
  find_entities txt (Some (k :: ks))
  = filter (fun e => mem (entity_type e) (k :: ks)) (find_entities txt None).
Proof.
  unfold find_entities. rewrite sorted_select, filter_candidates.
  reflexivity.
Qed.

(** X8. For a caller with an elevated role [/recognizers] lists seven
    pairwise different entity types, and every span detection ever returns,
    under any allow-list, has one of the listed types. *)
Theorem recognizers_cover (user : User) (names : list str) :
  recognizers user = Returned names ->
  length names = 7 /\ NoDup names
  /\ forall txt allowed e,
       In e (find_entities txt allowed) -> In (entity_type e) names.
Proof.
  unfold recognizers.
  destruct (require_roles elevated user); [|discriminate].
  intros [= <-]. split; [reflexivity|].
  split; [apply PATTERNS_keys_NoDup|].
  intros txt allowed e Hin.
  destruct (find_entities_shape txt allowed e Hin) as (kv & HP & He).
  pose proof (hits_of_type txt kv) as Hty.
  rewrite Forall_forall in Hty. rewrite (Hty e He).
  exact (in_map fst PATTERNS kv HP).
Qed.

Lemma recognizers_cover_witness :
  length (map fst PATTERNS) = 7 /\ NoDup (map fst PATTERNS)
  /\ forall txt allowed e,
       In e (find_entities txt allowed) ->
       In (entity_type e) (map fst PATTERNS).
Proof.
  apply (recognizers_cover admin). reflexivity.
Defined.

(* ================================================================== *)
(** ** main.py *)
(* ================================================================== *)

Lemma str_ltb_irrefl (a : str) : str_ltb a a = false.
Proof.
  induction a as [|x a IH]; [reflexivity|]. simpl.
  rewrite Nat.ltb_irrefl, Nat.eqb_refl, IH. reflexivity.
Qed.

Lemma str_ltb_trans (a b c : str) :
  str_ltb a b = true -> str_ltb b c = true -> str_ltb a c = true.
Proof.
  revert b c; induction a as [|x a IH]; intros [|y b] [|z c]; simpl;
    try discriminate; try reflexivity.
  rewrite !orb_true_iff, !andb_true_iff, !Nat.ltb_lt, !Nat.eqb_eq.
  intros [Hxy|[Hxy Hab]] [Hyz|[Hyz Hbc]]; try (left; lia).
  right. split; [lia | now apply (IH b c)].
Qed.

Lemma str_ltb_total (a b : str) :
  str_ltb a b = false -> str_eqb a b = false -> str_ltb b a = true.
Proof.
  revert b; induction a as [|x a IH]; intros [|y b]; simpl;
    try discriminate; try reflexivity.
  rewrite orb_false_iff, andb_false_iff, Nat.ltb_ge.
  intros [Hge Hrest] Heq.
  apply orb_true_iff.
  destruct (Nat.eq_dec (nat_of_ascii x) (nat_of_ascii y)) as [Hxy|Hxy].
  - right. rewrite Hxy, Nat.eqb_refl. simpl. apply IH.
    + destruct Hrest as [Hne|Hlt]; [|exact Hlt].
      apply Nat.eqb_neq in Hne. congruence.
    + assert (x = y) as ->.
      { rewrite <- (ascii_nat_embedding x), <- (ascii_nat_embedding y).
        now rewrite Hxy. }
      now rewrite Ascii.eqb_refl in Heq.
  - left. apply Nat.ltb_lt. lia.
Qed.

Lemma insert_set_In (x z : str) (l : list str) :
  In z (insert_set x l) <-> z = x \/ In z l.
Proof.
  induction l as [|y l IH]; simpl; [intuition|].
  destruct (str_ltb x y); [simpl; intuition|].
  destruct (str_eqb x y) eqn:E.
  - apply str_eqb_eq in E. subst y. simpl. intuition.
  - simpl. rewrite IH. intuition.
Qed.

Lemma sorted_set_In (z : str) (l : list str) :
  In z (sorted_set l) <-> In z l.
Proof.
  induction l as [|x l IH]; simpl; [tauto|].
  rewrite insert_set_In, IH. intuition.
Qed.

Lemma insert_set_sorted (x : str) (l : list str) :
  StronglySorted (fun a b => str_ltb a b = true) l ->
  StronglySorted (fun a b => str_ltb a b = true) (insert_set x l).
Proof.
  induction 1 as [|y l Hs IH Hall]; simpl; [repeat constructor|].
  destruct (str_ltb x y) eqn:Hxy.
  - constructor; [now constructor|].
    constructor; [exact Hxy|].
    eapply Forall_impl; [|exact Hall].
    intros b Hyb. now apply (str_ltb_trans x y b).
  - destruct (str_eqb x y) eqn:E; [now constructor|].
    constructor; [exact IH|].
    apply Forall_forall. intros b Hb. apply insert_set_In in Hb.
    destruct Hb as [->|Hb]; [now apply str_ltb_total|].
    rewrite Forall_forall in Hall. now apply Hall.
Qed.

Lemma sorted_set_sorted (l : list str) :
  StronglySorted (fun a b => str_ltb a b = true) (sorted_set l).
Proof.
  induction l as [|x l IH]; simpl; [constructor|].
  now apply insert_set_sorted.
Qed.

Lemma strictly_sorted_NoDup (l : list str) :
  StronglySorted (fun a b => str_ltb a b = true) l -> NoDup l.
Proof.
  induction 1 as [|x l Hs IH Hall]; constructor; [|exact IH].
  intros Hin. rewrite Forall_forall in Hall.
  specialize (Hall x Hin). now rewrite str_ltb_irrefl in Hall.
Qed.

(** X9. The list of supported entity types is in strictly ascending code
    point order, so without repetition, and holds exactly the types the
    analyzer reports and the four the service registers (ES_DNI, ES_IBAN,
    OPENAI_KEY, GENERIC_CREDIT_CARD), whether or not the analyzer reports
    those too. *)
Theorem supported_entities_sorted_set (base : list str) :
  StronglySorted (fun a b => str_ltb a b = true)
                 (Main._supported_entities base)
  /\ NoDup (Main._supported_entities base)
  /\ forall x, In x (Main._supported_entities base)
               <-> In x base \/ In x Main.custom_entities.
Proof.
  unfold Main._supported_entities.
  split; [apply sorted_set_sorted|].
  split; [apply strictly_sorted_NoDup, sorted_set_sorted|].
  intros x. rewrite sorted_set_In. apply in_app_iff.
Qed.

Lemma get_set_same (V : Type) (d : dict V) (k : str) (v : V) :
  get (PyStr.set d k v) k = Some v.
Proof.
  induction d as [|[k' v'] d IH]; simpl.
  - now rewrite str_eqb_refl.
  - destruct (str_eqb k' k) eqn:E; simpl; rewrite E; [reflexivity | exact IH].
Qed.

Lemma get_set_other (V : Type) (d : dict V) (k k' : str) (v : V) :
  k <> k' -> get (PyStr.set d k v) k' = get d k'.
Proof.
  intros Hne. induction d as [|[k0 v0] d IH]; simpl.
  - destruct (str_eqb k k') eqn:E; [|reflexivity].
    apply str_eqb_eq in E. congruence.
  - destruct (str_eqb k0 k) eqn:E; simpl.
    + apply str_eqb_eq in E. subst k0.
      destruct (str_eqb k k') eqn:E'; [|reflexivity].
      apply str_eqb_eq in E'. congruence.
    + now rewrite IH.
Qed.

(** Filling a dictionary key by key with a value computed from the key. *)
Lemma get_fold_set (V : Type) (f : str -> V) (keys : list str) :
  forall (d : dict V) (k : str),
    get (fold_left (fun ops ent => PyStr.set ops ent (f ent)) keys d) k
    = if mem k keys then Some (f k) else get d k.
Proof.
  induction keys as [|x keys IH]; intros d k; [reflexivity|].
  simpl fold_left. rewrite IH. unfold mem. simpl existsb.
  fold (mem k keys).
  destruct (mem k keys); [now rewrite orb_true_r|].
  rewrite orb_false_r.
  destruct (str_eqb k x) eqn:E.
  - apply str_eqb_eq in E. subst x. apply get_set_same.
  - apply get_set_other. intros ->. now rewrite str_eqb_refl in E.
Qed.

(** X10. The operator map has an entry exactly for the supported entity
    types.  Under ["mask"] every entry is the mask operator with
    [masking_char], [chars_to_mask] and [from_end = True]; under any other
    operator the entry of a type is the replace operator with the tag
    [<TYPE>] of that same type.  Looking up any other name finds
    nothing. *)
Theorem ops_lookup (base : list str) (operator mask_char : str)
  (mask_len : Z) (ent : str) :
  get (Main._ops base operator mask_char mask_len) ent
  = if mem ent (Main._supported_entities base)
    then Some (if str_eqb operator (lit "mask")
               then {| operator_name := lit "mask";
                       params := [(lit "masking_char", VStr mask_char);
                                  (lit "chars_to_mask", VInt mask_len);
                                  (lit "from_end", VBool true)] |}
               else {| operator_name := lit "replace";
                       params := [(lit "new_value",
                                   VStr (lit "<" ++ ent ++ lit ">"))] |})
    else None.
Proof.
  unfold Main._ops.
  rewrite (get_fold_set _
             (Main.config_for operator mask_char mask_len)).
  reflexivity.
Qed.

Lemma to_hits_of_hits (txt : str) (l : list EntityHit) :
  Forall (fun e => text e = slice txt (start e) (end_ e)) l ->
  Main.to_hits txt (map result_of_hit l) = l.
Proof.
  induction 1 as [|e l He _ IH]; [reflexivity|].
  simpl. rewrite IH. f_equal.
  destruct e as [ty s e' sc tx]. simpl in *. now rewrite He.
Qed.

Lemma filter_results_of_hits (allowed : list str) (l : list EntityHit) :
  filter (fun r => mem (RecognizerResult.entity_type r) allowed)
         (map result_of_hit l)
  = map result_of_hit (filter (fun e => mem (entity_type e) allowed) l).
Proof.
  induction l as [|e l IH]; [reflexivity|].
  simpl. rewrite IH. now destruct (mem (entity_type e) allowed).
Qed.

Lemma filter_keeps (A : Type) (P : A -> Prop) (f : A -> bool) (l : list A) :
  Forall P l -> Forall P (filter f l).
Proof.
  intros H. apply Forall_forall. intros x Hx. apply filter_In in Hx.
  rewrite Forall_forall in H. now apply H.
Qed.

(** X11. The two implementations apply the allow-list to the same effect:
    taking the spans the regex detector finds without an allow-list as
    analyzer results, the filter and the conversion of [main.py] give back
    exactly what the regex detector returns under the allow-list, for an
    absent, an empty and a non-empty list alike, [text] snippets
    included. *)
Theorem filter_then_hits_is_detection (txt : str)
  (allowed : option (list str)) :
  Main.to_hits txt
    (Main.filter_entities (map result_of_hit (find_entities txt None))
                          allowed)
  = find_entities txt allowed.
Proof.
  destruct allowed as [[|k ks]|]; unfold Main.filter_entities.
  - apply to_hits_of_hits. apply (find_entities_text txt None).
  - rewrite filter_results_of_hits, to_hits_of_hits.
    + unfold find_entities. rewrite sorted_select, filter_candidates.
      reflexivity.
    + apply filter_keeps. apply find_entities_text.
  - apply to_hits_of_hits. apply find_entities_text.
Qed.

(** X12. Whatever the analyzer and the anonymizer do, the preview of
    [main.py] lists only spans the analyzer reported, each with the slice
    of the request text at its offsets as [text] and, under a non-empty
    allow-list, with a listed entity type; the anonymizer is given exactly
    those results, and apply answers with the same text and the same
    entities. *)
Theorem main_preview_entities
  (base : list str)
  (analyze : str -> str -> list RecognizerResult.t)
  (anonymize : str -> list RecognizerResult.t -> dict AnonymizerConfig -> str)
  (ndiff : list str -> list str -> list str)
  (req : PreviewRequest) (user : User) (p : PreviewResponse) :
  Main.sanitize_preview base analyze anonymize ndiff req user = Returned p ->
  (forall e, In e (entities p) ->
     text e = slice (req_text req) (start e) (end_ e)
     /\ In (result_of_hit e) (analyze (req_text req) (language req))
     /\ forall k ks, req_entities req = Some (k :: ks) ->
                     In (entity_type e) (k :: ks))
  /\ (exists results,
        entities p = Main.to_hits (req_text req) results
        /\ redacted_text p
           = anonymize (req_text req) results
               (Main._ops base (operator req) (mask_char req) (mask_len req)))
  /\ Main.sanitize_apply base analyze anonymize req user
     = Returned {| sanitized_text := redacted_text p;
                   entities_applied := entities p |}.
Proof.
  unfold Main.sanitize_preview, Main.sanitize_apply.
  destruct (require_roles elevated user); [|discriminate].
  intros [= <-]. cbn [entities redacted_text].
  split; [|split; [eexists; split; reflexivity | reflexivity]].
  intros e He. unfold Main.to_hits in He. apply in_map_iff in He.
  destruct He as (r & <- & Hr). cbn [text start end_ entity_type].
  split; [reflexivity|].
  assert (Hsub : In r (analyze (req_text req) (language req))
                 /\ forall k ks, req_entities req = Some (k :: ks) ->
                      In (RecognizerResult.entity_type r) (k :: ks)).
  { unfold Main.filter_entities in Hr.
    destruct (req_entities req) as [[|k ks]|].
    - split; [exact Hr | discriminate].
    - apply filter_In in Hr. destruct Hr as [Hr Hmem].
      split; [exact Hr|]. intros k' ks' [= <- <-]. now apply mem_In.
    - split; [exact Hr | discriminate]. }
  destruct Hsub as [Hin Hty]. split; [|exact Hty].
  unfold result_of_hit. cbn [text start end_ entity_type score].
  now destruct r.
Qed.

Lemma main_preview_entities_witness :
  Main.sanitize_apply []
    (fun _ _ => [RecognizerResult.mk (lit "PERSON") 0 3 score_0_95;
                 RecognizerResult.mk (lit "EMAIL") 4 11 score_0_95])
    (fun txt _ _ => txt)
    (request (lit "Ann a@b.com") (Some [lit "EMAIL"])
             (lit "replace") (lit "*") 6) admin
  = Returned {| sanitized_text := lit "Ann a@b.com";
                entities_applied := [hit "EMAIL" 4 11 "a@b.com"] |}.
Proof.
  refine (proj2 (proj2
    (main_preview_entities []
       (fun _ _ => [RecognizerResult.mk (lit "PERSON") 0 3 score_0_95;
                    RecognizerResult.mk (lit "EMAIL") 4 11 score_0_95])
       (fun txt _ _ => txt) (fun _ _ => [])
       (request (lit "Ann a@b.com") (Some [lit "EMAIL"])
                (lit "replace") (lit "*") 6) admin
       {| redacted_text := lit "Ann a@b.com";
          entities := [hit "EMAIL" 4 11 "a@b.com"];
          diff := Some [] |} _))).
  vm_compute. reflexivity.
Defined.

(* ================================================================== *)
(** ** rag-svc *)
(* ================================================================== *)

(** The loop of [build_context] takes a prefix of the entries, stays within
    the budget, and stops only at the end or at an entry that does not
    fit. *)
Lemma take_pieces_prefix (max_chars : Z) (pairs : list (str * dict value)) :
  forall i total,
    exists n,
      Rag.take_pieces max_chars i total pairs = firstn n (numbered i pairs)
      /\ n <= length pairs
      /\ ((total <= max_chars)%Z ->
          (total + total_len (firstn n (numbered i pairs)) <= max_chars)%Z)
      /\ (n = length pairs
          \/ exists next,
               nth_error (numbered i pairs) n = Some next
               /\ (max_chars
                   < total + total_len (firstn n (numbered i pairs))
                     + len next)%Z).
Proof.
  induction pairs as [|[d m] rest IH]; intros i total.
  - exists 0. cbn [numbered firstn total_len fold_right length Rag.take_pieces].
    split; [reflexivity|]. split; [lia|]. split; [lia | now left].
  - simpl Rag.take_pieces.
    destruct (Z.ltb_spec max_chars (total + len (Rag.piece i d m)))
      as [Hover|Hfits].
    + exists 0. cbn [numbered firstn total_len fold_right length nth_error].
      split; [reflexivity|]. split; [lia|]. split; [lia|].
      right. exists (Rag.piece i d m). split; [reflexivity | lia].
    + destruct (IH (i + 1)%Z (total + len (Rag.piece i d m))%Z)
        as (n & Htake & Hn & Hbudget & Hstop).
      exists (S n). cbn [numbered firstn length total_len fold_right].
      fold (total_len (firstn n (numbered (i + 1) rest))).
      rewrite Htake. split; [reflexivity|]. split; [lia|]. split.
      * intros _. specialize (Hbudget Hfits). lia.
      * destruct Hstop as [->|(next & Hnth & Hover)]; [now left|].
        right. exists next. split; [exact Hnth | lia].
Qed.

Lemma len_join_cons (sep x : str) (l : list str) :
  len (join sep (x :: l))
  = (len x + total_len l + len sep * Z.of_nat (length l))%Z.
Proof.
  revert x; induction l as [|y l IH]; intros x.
  - simpl. lia.
  - change (join sep (x :: y :: l)) with (x ++ sep ++ join sep (y :: l)).
    rewrite !len_app, IH.
    cbn [total_len fold_right length]. fold (total_len l).
    rewrite Nat2Z.inj_succ. ring.
Qed.

Lemma len_join (sep : str) (l : list str) :
  len (join sep l)
  = (total_len l + len sep * Z.max 0 (Z.of_nat (length l) - 1))%Z.
Proof.
  destruct l as [|x l]; [unfold len; simpl; lia|].
  rewrite len_join_cons.
  cbn [total_len fold_right length]. fold (total_len l).
  replace (Z.max 0 (Z.of_nat (S (length l)) - 1)) with (Z.of_nat (length l))
    by lia.
  ring.
Qed.

Lemma numbered_length (i : Z) (pairs : list (str * dict value)) :
  length (numbered i pairs) = length pairs.
Proof.
  revert i; induction pairs as [|[d m] rest IH]; intros i; simpl;
    [reflexivity | now rewrite IH].
Qed.

(** X13. [build_context] joins a prefix of the numbered entries: it takes
    entries in order while their lengths sum to at most [max_chars], and
    stops for good at the first entry that does not fit, so a later,
    shorter entry is never taken.  With a [max_chars] that is not
    negative, the entries taken have at most [max_chars] characters
    together. *)
Theorem build_context_prefix (docs : list str) (metas : list (dict value))
  (max_chars : Z) :
  exists n,
    Rag.build_context docs metas max_chars
    = join Rag.separator (firstn n (numbered 1 (combine docs metas)))
    /\ n <= Nat.min (length docs) (length metas)
    /\ ((0 <= max_chars)%Z ->
        (total_len (firstn n (numbered 1 (combine docs metas)))
         <= max_chars)%Z)
    /\ (n = Nat.min (length docs) (length metas)
        \/ exists next,
             nth_error (numbered 1 (combine docs metas)) n = Some next
             /\ (max_chars
                 < total_len (firstn n (numbered 1 (combine docs metas)))
                   + len next)%Z).
Proof.
  destruct (take_pieces_prefix max_chars (combine docs metas) 1 0)
    as (n & Htake & Hn & Hbudget & Hstop).
  rewrite length_combine in Hn, Hstop.
  exists n. unfold Rag.build_context. rewrite Htake.
  split; [reflexivity|]. split; [exact Hn|]. split.
  - intros H0. specialize (Hbudget H0). lia.
  - destruct Hstop as [->|(next & Hnth & Hover)]; [now left|].
    right. exists next. split; [exact Hnth | lia].
Qed.

(** X14. The separators are not counted against the budget: for a
    [max_chars] that is not negative the context has at most [max_chars]
    characters plus seven for each separator, of which there are fewer
    than the documents and fewer than the metadata records; a negative
    [max_chars] gives the empty context. *)
Theorem build_context_length (docs : list str) (metas : list (dict value))
  (max_chars : Z) :
  ((0 <= max_chars)%Z ->
   (len (Rag.build_context docs metas max_chars)
    <= max_chars
       + 7 * Z.max 0 (Z.of_nat (Nat.min (length docs) (length metas)) - 1))%Z)
  /\ ((max_chars < 0)%Z -> Rag.build_context docs metas max_chars = []).
Proof.
  destruct (take_pieces_prefix max_chars (combine docs metas) 1 0)
    as (n & Htake & Hn & Hbudget & Hstop).
  rewrite length_combine in Hn.
  unfold Rag.build_context. rewrite Htake. split.
  - intros H0. specialize (Hbudget H0).
    rewrite len_join.
    assert (Hlen : length (firstn n (numbered 1 (combine docs metas))) <= n)
      by (rewrite length_firstn; lia).
    change (len Rag.separator) with 7%Z. lia.
  - intros Hneg. rewrite <- Htake.
    destruct (combine docs metas) as [|[d m] rest]; [reflexivity|].
    cbn [Rag.take_pieces].
    destruct (Z.ltb_spec max_chars (0 + len (Rag.piece 1 d m)));
      [reflexivity|].
    unfold len in *. lia.
Qed.


(** X16. The two versions of [sanitize] return the same text whenever the
    one of [main.py] returns; where that one lets an exception through
    (no reply, or a body that is not JSON under a status below 300), the
    one of [main_simple.py] returns the text it was given. *)
Theorem sanitize_versions (base : str)
  (post : str -> dict str -> dict str -> Rag.reply) (txt token : str) :
  match Rag.sanitize_main base post txt token with
  | Some s => Rag.sanitize base post txt token = s
  | None =>
      Rag.sanitize base post txt token = txt
      /\ (Rag.sanitize_call base post txt token = Rag.NoReply
          \/ exists c,
               Rag.sanitize_call base post txt token = Rag.Reply c None
               /\ (c < 300)%Z)
  end.
Proof.
  unfold Rag.sanitize_main, Rag.sanitize.
  destruct (Rag.sanitize_call base post txt token) as [|c [body|]].
  - split; [reflexivity | now left].
  - destruct (300 <=? c)%Z; [reflexivity|].
    now destruct (get body (lit "sanitized_text")).
  - destruct (Z.leb_spec 300 c); [reflexivity|].
    split; [reflexivity|]. right. exists c. now split.
Qed.

Lemma relay_served (decode : str -> option Payload) (json headers : dict str) :
  served decode json headers (relay decode json headers).
Proof.
  unfold served, relay.
  destruct (checker decode elevated (get headers (lit "Authorization")))
    as [user|[[c detail]|]]; eauto.
  destruct (request_of_json json) as [req|]; eauto.
  destruct (sanitize_apply req user) as [a|[c detail]]; eauto.
Qed.

(** What the sanitize service makes of the call of [sanitize]. *)
Lemma served_sanitize_call (decode : str -> option Payload)
  (base : str) (post : str -> dict str -> dict str -> Rag.reply)
  (txt token : str) :
  (forall url json headers, served decode json headers (post url json headers)) ->
  match get_current_user decode (Some (lit "Bearer" ++ " "%char :: token)) with
  | inr _ => Rag.sanitize base post txt token = txt
  | inl user =>
      if has_role elevated user
      then Rag.sanitize base post txt token
           = apply_sanitization txt (find_entities txt None)
               (lit "replace") (lit "*") 6
      else Rag.sanitize base post txt token = txt
  end.
Proof.
  intros Hserved. unfold Rag.sanitize, Rag.sanitize_call.
  match goal with
  | |- context [post ?u ?j ?h] =>
      specialize (Hserved u j h); generalize dependent (post u j h)
  end.
  intros r Hserved. unfold served, checker in Hserved.
  change (get _ (lit "Authorization"))
    with (Some (lit "Bearer" ++ " "%char :: token)) in Hserved.
  destruct (get_current_user decode (Some (lit "Bearer" ++ " "%char :: token)))
    as [user|e] eqn:G.
  - unfold require_roles in Hserved.
    destruct (has_role elevated user) eqn:Hrole; simpl negb in Hserved;
      cbv iota in Hserved.
    + change (request_of_json _)
        with (Some (request txt None (lit "replace") (lit "*") 6)) in Hserved.
      cbv iota beta in Hserved. unfold sanitize_apply in Hserved.
      rewrite (require_roles_elevated user Hrole) in Hserved.
      destruct Hserved as (b & -> & Hget).
      change (300 <=? 200)%Z with false. cbv iota.
      rewrite Hget. reflexivity.
    + destruct Hserved as (b & ->). reflexivity.
  - destruct (get_current_user_401 decode _ e G) as (detail & ->).
    destruct Hserved as (b & ->). reflexivity.
Qed.

(** The outcome of the call by the role of the token's user. *)
Lemma sanitize_by_role_helper (decode : str -> option Payload) (base : str)
  (post : str -> dict str -> dict str -> Rag.reply)
  (txt token : str) (payload : Payload) (c : ascii) (email' : str) :
  (forall url json headers,
      served decode json headers (post url json headers)) ->
  decode token = Some payload ->
  sub payload = Some (c :: email') ->
  Rag.sanitize base post txt token
  = if has_role elevated
         {| email := c :: email';
            roles := match roles_claim payload with
                     | Some r => r
                     | None => []
                     end |}
    then apply_sanitization txt (find_entities txt None)
           (lit "replace") (lit "*") 6
    else txt.
Proof.
  intros Hserved Hdecode Hsub.
  pose proof (served_sanitize_call decode base post txt token Hserved) as H.
  pose proof (get_current_user_bearer decode (lit "Bearer") token eq_refl)
    as G.
  rewrite Hdecode, Hsub in G.
  pose proof (eq_ind _ (fun g => match g with
                                 | inl user =>
                                     if has_role elevated user
                                     then Rag.sanitize base post txt token
                                          = apply_sanitization txt
                                              (find_entities txt None)
                                              (lit "replace") (lit "*") 6
                                     else Rag.sanitize base post txt token
                                          = txt
                                 | inr _ =>
                                     Rag.sanitize base post txt token = txt
                                 end) H _ G) as H'.
  cbv beta iota in H'.
  destruct (has_role elevated _); exact H'.
Qed.

(** X17. Across the two services: when the sanitize service of
    [main_simple.py] is what answers the call, [sanitize] returns the text
    rewritten with the tags of all seven patterns for a token whose user
    has one of the roles expert, moderator or admin, and the text as it was
    given for a token whose user has none of them: the refusal of the
    role check is taken as a soft failure. *)
Theorem sanitize_by_role (decode : str -> option Payload) (base : str)
  (post : str -> dict str -> dict str -> Rag.reply)
  (txt token : str) (payload : Payload) (c : ascii) (email' : str) :
  (forall url json headers,
      served decode json headers (post url json headers)) ->
  decode token = Some payload ->
  sub payload = Some (c :: email') ->
  Rag.sanitize base post txt token
  = if has_role elevated
         {| email := c :: email';
            roles := match roles_claim payload with
                     | Some r => r
                     | None => []
                     end |}
    then apply_sanitization txt (find_entities txt None)
           (lit "replace") (lit "*") 6
    else txt.
Proof.
  intros Hserved Hdecode Hsub.
  pose proof (served_sanitize_call decode base post txt token Hserved) as H.
  pose proof (get_current_user_bearer decode (lit "Bearer") token eq_refl)
    as G.
  rewrite Hdecode, Hsub in G.
  pose proof (eq_ind _ (fun g => match g with
                                 | inl user =>
                                     if has_role elevated user
                                     then Rag.sanitize base post txt token
                                          = apply_sanitization txt
                                              (find_entities txt None)
                                              (lit "replace") (lit "*") 6
                                     else Rag.sanitize base post txt token
                                          = txt
                                 | inr _ =>
                                     Rag.sanitize base post txt token = txt
                                 end) H _ G) as H'.
  cbv beta iota in H'.
  destruct (has_role elevated _); exact H'.
Qed.

Lemma sanitize_by_role_witness :
  Rag.sanitize (lit "http://localhost:8103")
    (fun _ => relay (fun t => if str_eqb t (lit "t1")
                              then Some {| sub := Some (lit "u@x.org");
                                           roles_claim := Some [lit "user"] |}
                              else None))
    (lit "mail a@b.com") (lit "t1")
  = lit "mail a@b.com".
Proof.
  apply (sanitize_by_role
           (fun t => if str_eqb t (lit "t1")
                     then Some {| sub := Some (lit "u@x.org");
                                  roles_claim := Some [lit "user"] |}
                     else None)
           (lit "http://localhost:8103")
           (fun _ => relay _)
           (lit "mail a@b.com") (lit "t1")
           {| sub := Some (lit "u@x.org"); roles_claim := Some [lit "user"] |}
           "u" (lit "@x.org")).
  - intros url json headers. apply relay_served.
  - reflexivity.
  - reflexivity.
Defined.

Lemma unavailable_sanitize (base : str)
  (post : str -> dict str -> dict str -> Rag.reply) (txt token : str) :
  unavailable post -> Rag.sanitize base post txt token = txt.
Proof.
  intros Hdown. unfold Rag.sanitize, Rag.sanitize_call.
  match goal with
  | |- context [post ?u ?j ?h] =>
      destruct (Hdown u j h) as [->|(c & body & -> & Hc)]
  end; [reflexivity|].
  destruct (Z.leb_spec 300 c); [reflexivity | lia].
Qed.

(** A header that resolves to a user carries a token, the one the decoder
    was given. *)
Lemma resolved_header (decode : str -> option Payload)
  (authorization : option str) (u : User) :
  get_current_user decode authorization = inl u ->
  exists scheme token,
    authorization = Some (scheme ++ " "%char :: token)
    /\ lower scheme = lit "bearer"
    /\ Rag.bearer authorization = inl (Some token).
Proof.
  destruct authorization as [a|]; [|discriminate].
  destruct (startswith (lower a) (lit "bearer ")) eqn:Hstart.
  - intros _.
    destruct (bearer_header_shape a Hstart) as (scheme & token & -> & Hs & Hnin).
    exists scheme, token. split; [reflexivity|]. split; [exact Hs|].
    unfold Rag.bearer. rewrite Hstart, (split1_bearer _ _ Hnin).
    destruct scheme; [discriminate Hs | reflexivity].
  - unfold get_current_user. rewrite Hstart, orb_true_r. discriminate.
Qed.


(** X19. Across the two services: [rag_query] admits a caller whose only
    role is [user], but the sanitize service refuses that role, so with the
    sanitize service of [main_simple.py] answering, such a caller gets the
    mock answer around its question as it came and, with [sanitize_in] on,
    that same unsanitized question as [question_sanitized]. *)
Theorem rag_query_plain_user (base : str)
  (post : str -> dict str -> dict str -> Rag.reply)
  (decode : str -> option Payload) (dt : Z)
  (req : Rag.QueryRequest) (token : str) (payload : Payload)
  (c : ascii) (email' : str) :
  (forall url json headers,
      served decode json headers (post url json headers)) ->
  decode token = Some payload ->
  sub payload = Some (c :: email') ->
  roles_claim payload = Some [lit "user"] ->
  Rag.rag_query base post decode dt req (Some (lit "Bearer " ++ token))
  = inl {| Rag.answer := Rag.mock_answer (Rag.question req);
           Rag.citations := [Rag.mock_citation];
           Rag.question_sanitized :=
             if Rag.sanitize_in req then Some (Rag.question req) else None;
           Rag.latency_ms := dt |}.
Proof.
  intros Hserved Hdecode Hsub Hroles.
  assert (Hsan : forall txt, Rag.sanitize base post txt token = txt).
  { intros txt.
    rewrite (sanitize_by_role_helper decode base post txt token payload
               c email' Hserved Hdecode Hsub).
    rewrite Hroles. reflexivity. }
  pose proof (get_current_user_bearer decode (lit "Bearer") token eq_refl)
    as G.
  rewrite Hdecode, Hsub, Hroles in G.
  unfold Rag.rag_query, checker.
  change (Some (lit "Bearer " ++ token))
    with (Some (lit "Bearer" ++ " "%char :: token)).
  pose proof (split1_bearer (lit "Bearer") token
                ltac:(vm_compute; intuition discriminate)) as Hsplit.
  assert (Hb : Rag.bearer (Some (lit "Bearer" ++ " "%char :: token))
               = inl (Some token)).
  { unfold Rag.bearer.
    rewrite (proj1 (bearer_header_accepted (lit "Bearer") token eq_refl)).
    rewrite Hsplit. reflexivity. }
  rewrite Hb.
  match goal with
  | |- match match ?g with _ => _ end with _ => _ end = _ =>
      replace g with (@inl User raised
                        {| email := c :: email'; roles := [lit "user"] |})
  end.
  cbv beta iota. unfold require_roles.
  change (has_role Rag.any_role _) with true. cbv beta iota. simpl negb.
  cbv iota. f_equal.
  destruct (Rag.and_token (Rag.sanitize_out req) (Some token));
    destruct (Rag.sanitize_in req);
    destruct (Rag.and_token _ (Some token));
    rewrite ?Hsan; reflexivity.
Qed.

Lemma rag_query_plain_user_witness :
  Rag.rag_query (lit "http://localhost:8103")
    (fun _ => relay (fun t => if str_eqb t (lit "t1")
                              then Some {| sub := Some (lit "u@x.org");
                                           roles_claim := Some [lit "user"] |}
                              else None))
    (fun t => if str_eqb t (lit "t1")
              then Some {| sub := Some (lit "u@x.org");
                           roles_claim := Some [lit "user"] |}
              else None)
    12
    {| Rag.question := lit "who is a@b.com"; Rag.top_k := 4;
       Rag.sanitize_in := true; Rag.sanitize_out := true |}
    (Some (lit "Bearer t1"))
  = inl {| Rag.answer := Rag.mock_answer (lit "who is a@b.com");
           Rag.citations := [Rag.mock_citation];
           Rag.question_sanitized := Some (lit "who is a@b.com");
           Rag.latency_ms := 12 |}.
Proof.
  apply (rag_query_plain_user (lit "http://localhost:8103")
           (fun _ => relay _) _ 12
           {| Rag.question := lit "who is a@b.com"; Rag.top_k := 4;
              Rag.sanitize_in := true; Rag.sanitize_out := true |}
           (lit "t1")
           {| sub := Some (lit "u@x.org"); roles_claim := Some [lit "user"] |}
           "u" (lit "@x.org")).
  - intros url json headers. apply relay_served.
  - reflexivity.
  - reflexivity.
  - reflexivity.
Defined.

(** The budget can be exceeded by the separators: two entries that fill
    [max_chars] exactly are both taken and joined by seven more
    characters. *)
Example build_context_over_budget :
  len (Rag.build_context [lit "abc"; lit "de"] [[]; []] 53) = 60%Z.
Proof. vm_compute. reflexivity. Qed.

(* ================================================================== *)
(** ** files-svc *)
(* ================================================================== *)

Lemma sub_unsafe_safe (in_run : bool) (s : str) :
  Forall (fun c => Files.safe c = true) (Files.sub_unsafe in_run s).
Proof.
  revert in_run; induction s as [|c s IH]; intros in_run; simpl;
    [constructor|].
  destruct (Files.safe c) eqn:Hc; [now constructor|].
  destruct in_run; [apply IH|]. constructor; [reflexivity | apply IH].
Qed.

(** What [lstrip('_')] removes is underscores, and it stops at the first
    character that is none. *)
Lemma lstrip_underscore_spec (s : str) :
  exists p,
    s = p ++ Files.lstrip_underscore s
    /\ Forall (fun c => Files.is_underscore c = true) p
    /\ forall c, hd_error (Files.lstrip_underscore s) = Some c ->
                 Files.is_underscore c = false.
Proof.
  induction s as [|c s (p & Hs & Hp & Hhd)]; simpl.
  - exists []. repeat split; [constructor | discriminate].
  - destruct (Files.is_underscore c) eqn:Hc.
    + exists (c :: p). simpl. rewrite <- Hs.
      repeat split; [now constructor | exact Hhd].
    + exists []. repeat split; [constructor|].
      intros c' [= <-]. exact Hc.
Qed.

Lemma lstrip_underscore_id (s : str) :
  (forall c, hd_error s = Some c -> Files.is_underscore c = false) ->
  Files.lstrip_underscore s = s.
Proof.
  destruct s as [|c s]; [reflexivity|]. intros H. simpl.
  now rewrite (H c eq_refl).
Qed.

(** [strip('_')] cuts underscores, and nothing else, off both ends. *)
Lemma strip_underscore_spec (s : str) :
  exists p q,
    s = p ++ Files.strip_underscore s ++ q
    /\ Forall (fun c => Files.is_underscore c = true) p
    /\ Forall (fun c => Files.is_underscore c = true) q
    /\ (forall c, hd_error (Files.strip_underscore s) = Some c ->
                  Files.is_underscore c = false)
    /\ (forall c, hd_error (rev (Files.strip_underscore s)) = Some c ->
                  Files.is_underscore c = false).
Proof.
  unfold Files.strip_underscore.
  destruct (lstrip_underscore_spec s) as (p & Hs & Hp & Hhd).
  destruct (lstrip_underscore_spec (rev (Files.lstrip_underscore s)))
    as (q & Ht & Hq & Hlast).
  set (t := Files.lstrip_underscore s) in *.
  set (r := Files.lstrip_underscore (rev t)) in *.
  assert (Et : t = rev r ++ rev q).
  { rewrite <- rev_app_distr, <- Ht. symmetry. apply rev_involutive. }
  exists p, (rev q). split; [now rewrite <- Et|].
  split; [exact Hp|]. split; [now apply Forall_rev|]. split.
  - intros c Hc. apply Hhd. rewrite Et.
    destruct (rev r); [discriminate Hc | exact Hc].
  - rewrite rev_involutive. exact Hlast.
Qed.

Lemma strip_underscore_nil (s : str) :
  Files.strip_underscore s = []
  <-> Forall (fun c => Files.is_underscore c = true) s.
Proof.
  destruct (strip_underscore_spec s) as (p & q & Hs & Hp & Hq & _).
  split.
  - intros E. rewrite E in Hs. rewrite Hs. simpl.
    apply Forall_app. now split.
  - intros Hall. destruct (Files.strip_underscore s) as [|c r] eqn:E;
      [reflexivity|].
    exfalso. destruct (strip_underscore_spec s) as (_ & _ & _ & _ & _ & Hhd & _).
    rewrite E in Hhd. specialize (Hhd c eq_refl).
    rewrite Hs in Hall. apply Forall_app in Hall. destruct Hall as [_ Hall].
    inversion Hall as [|? ? Hc _]; subst. congruence.
Qed.

Lemma strip_underscore_id (s : str) :
  (forall c, hd_error s = Some c -> Files.is_underscore c = false) ->
  (forall c, hd_error (rev s) = Some c -> Files.is_underscore c = false) ->
  Files.strip_underscore s = s.
Proof.
  intros Hhd Hlast. unfold Files.strip_underscore.
  rewrite (lstrip_underscore_id s Hhd), (lstrip_underscore_id (rev s) Hlast).
  apply rev_involutive.
Qed.

(** X20. A name that [sanitize_object_name] returns is not empty, holds
    only characters of [a-zA-Z0-9._/-], and neither starts nor ends with
    an underscore; the only error the function raises is 400 "Invalid
    filename". *)
Theorem object_name_safe (name : str) :
  match Files.sanitize_object_name name with
  | Returned r =>
      r <> []
      /\ Forall (fun c => Files.safe c = true) r
      /\ (forall c, hd_error r = Some c -> c <> "_"%char)
      /\ (forall c, hd_error (rev r) = Some c -> c <> "_"%char)
  | Raised e => e = HTTPException 400 (lit "Invalid filename")
  end.
Proof.
  unfold Files.sanitize_object_name.
  set (s := Files.sub_unsafe false (Files.replace_dotdot name)).
  destruct (strip_underscore_spec s) as (p & q & Hs & _ & _ & Hhd & Hlast).
  destruct (Files.strip_underscore s) as [|c r] eqn:E; simpl; [reflexivity|].
  split; [discriminate|]. split.
  - pose proof (sub_unsafe_safe false (Files.replace_dotdot name)) as Hsafe.
    fold s in Hsafe. rewrite Hs in Hsafe.
    apply Forall_app in Hsafe. destruct Hsafe as [_ Hsafe].
    apply Forall_app in Hsafe. now destruct Hsafe.
  - split; intros c' Hc' ->.
    + specialize (Hhd _ Hc'). discriminate Hhd.
    + specialize (Hlast _ Hc'). discriminate Hlast.
Qed.

(** [replace('..', '.')] drops dots only, and never the last of them. *)
Lemma replace_dotdot_step (c c' : ascii) (rest : str) :
  Files.replace_dotdot (c :: c' :: rest)
  = if Ascii.eqb c "." && Ascii.eqb c' "."
    then "."%char :: Files.replace_dotdot rest
    else c :: Files.replace_dotdot (c' :: rest).
Proof. reflexivity. Qed.

Lemma replace_dotdot_In (n : nat) :
  forall (s : str) (x : ascii),
    length s <= n -> (In x (Files.replace_dotdot s) <-> In x s).
Proof.
  induction n as [|n IH]; intros s x Hlen.
  - destruct s; [reflexivity | simpl in Hlen; lia].
  - destruct s as [|c [|c' rest]]; [reflexivity | reflexivity|].
    simpl in Hlen. rewrite replace_dotdot_step.
    destruct (Ascii.eqb_spec c "."); destruct (Ascii.eqb_spec c' ".");
      cbn [andb]; subst;
      try (cbn [In]; rewrite (IH (_ :: rest) x) by (simpl; lia);
           reflexivity).
    cbn [In]. rewrite (IH rest x) by lia. tauto.
Qed.

Lemma sub_unsafe_underscores (in_run : bool) (s : str) :
  Forall (fun c => Files.is_underscore c = true) (Files.sub_unsafe in_run s)
  <-> Forall (fun c => Files.safe c && negb (Files.is_underscore c) = false) s.
Proof.
  revert in_run; induction s as [|c s IH]; intros in_run; simpl;
    [split; constructor|].
  destruct (Files.safe c) eqn:Hc.
  - split; intros H; inversion H as [|? ? Hh Ht]; subst; constructor.
    + rewrite Hc, Hh. reflexivity.
    + now apply (IH false).
    + rewrite Hc in Hh. simpl in Hh. now apply negb_false_iff.
    + now apply (IH false).
  - destruct in_run; simpl.
    + rewrite (IH true). split; intros H.
      * constructor; [now rewrite Hc | exact H].
      * now inversion H.
    + split; intros H; inversion H as [|? ? Hh Ht]; subst; constructor;
        try reflexivity; try (now rewrite Hc); now apply (IH true).
Qed.

(** X21. [sanitize_object_name] refuses a name, with 400 "Invalid
    filename", exactly when the name has no character of [a-zA-Z0-9./-]:
    the empty name, and names made of underscores and of characters
    outside the class only. *)
Theorem object_name_refused (name : str) :
  Files.sanitize_object_name name
  = Raised (HTTPException 400 (lit "Invalid filename"))
  <-> Forall (fun c => Files.safe c && negb (Files.is_underscore c) = false)
             name.
Proof.
  unfold Files.sanitize_object_name.
  assert (Hnil : Files.strip_underscore
                   (Files.sub_unsafe false (Files.replace_dotdot name)) = []
                 <-> Forall (fun c => Files.safe c
                                      && negb (Files.is_underscore c) = false)
                            name).
  { rewrite strip_underscore_nil, sub_unsafe_underscores.
    rewrite !Forall_forall. split; intros H x Hx; apply H;
      now apply (replace_dotdot_In (length name) name x (le_n _)). }
  destruct (Files.strip_underscore _) as [|c r]; simpl.
  - split; [intros _; now apply Hnil | reflexivity].
  - split; [discriminate|]. intros H. apply Hnil in H. discriminate H.
Qed.

Lemma replace_dotdot_id (s : str) :
  Files.has_dotdot s = false -> Files.replace_dotdot s = s.
Proof.
  induction s as [|c s IH]; [reflexivity|].
  destruct s as [|c' rest]; [reflexivity|].
  rewrite replace_dotdot_step.
  change (Files.has_dotdot (c :: c' :: rest))
    with ((Ascii.eqb c "." && Ascii.eqb c' ".")
          || Files.has_dotdot (c' :: rest)).
  intros H. apply orb_false_iff in H. destruct H as [Hcc Hrest].
  rewrite Hcc. f_equal. now apply IH.
Qed.

Lemma sub_unsafe_id (in_run : bool) (s : str) :
  Forall (fun c => Files.safe c = true) s -> Files.sub_unsafe in_run s = s.
Proof.
  intros H. revert in_run. induction H as [|c s Hc _ IH]; intros in_run;
    simpl; [reflexivity|].
  now rewrite Hc, IH.
Qed.

(** X22. A name that is already clean is returned as it is: if it is not
    empty, holds only characters of [a-zA-Z0-9._/-], has no two dots in a
    row and neither starts nor ends with an underscore, then
    [sanitize_object_name] returns it unchanged.  With X20, sanitizing twice
    gives the same as once whenever the first result has no two dots in a
    row. *)
Theorem object_name_fixed (name : str) :
  name <> [] ->
  Forall (fun c => Files.safe c = true) name ->
  Files.has_dotdot name = false ->
  (forall c, hd_error name = Some c -> c <> "_"%char) ->
  (forall c, hd_error (rev name) = Some c -> c <> "_"%char) ->
  Files.sanitize_object_name name = Returned name.
Proof.
  intros Hne Hsafe Hdots Hhd Hlast. unfold Files.sanitize_object_name.
  rewrite (replace_dotdot_id name Hdots), (sub_unsafe_id false name Hsafe).
  rewrite strip_underscore_id.
  - destruct name; [congruence | reflexivity].
  - intros c Hc. specialize (Hhd c Hc). unfold Files.is_underscore.
    now apply Ascii.eqb_neq.
  - intros c Hc. specialize (Hlast c Hc). unfold Files.is_underscore.
    now apply Ascii.eqb_neq.
Qed.

Lemma object_name_fixed_witness :
  Files.sanitize_object_name (lit "docs/2024_report-v1.pdf")
  = Returned (lit "docs/2024_report-v1.pdf").
Proof.
  apply object_name_fixed.
  - discriminate.
  - vm_compute. repeat constructor.
  - reflexivity.
  - intros c [= <-]. discriminate.
  - intros c [= <-]. discriminate.
Defined.

Lemma has_dotdot_cons (x : ascii) (l : str) :
  Files.has_dotdot (x :: l)
  = match hd_error l with
    | Some y => Ascii.eqb x "." && Ascii.eqb y "."
    | None => false
    end || Files.has_dotdot l.
Proof. destruct l; reflexivity. Qed.

Lemma replace_dotdot_hd (s : str) :
  hd_error (Files.replace_dotdot s) = hd_error s.
Proof.
  destruct s as [|c [|c' rest]]; [reflexivity | reflexivity|].
  rewrite replace_dotdot_step.
  destruct (Ascii.eqb_spec c "."); [|reflexivity].
  destruct (Ascii.eqb c' "."); subst; reflexivity.
Qed.

(** Without three dots in a row, no two are left in a row. *)
Lemma replace_dotdot_clean (n : nat) :
  forall s : str,
    length s <= n -> Files.has_dots3 s = false ->
    Files.has_dotdot (Files.replace_dotdot s) = false.
Proof.
  induction n as [|n IH]; intros s Hlen H3.
  - destruct s; [reflexivity | simpl in Hlen; lia].
  - destruct s as [|c [|c' rest]]; [reflexivity | reflexivity|].
    simpl in Hlen. rewrite replace_dotdot_step.
    assert (H3' : Files.has_dots3 (c' :: rest) = false).
    { destruct rest as [|c'' rest]; [reflexivity|].
      change (Files.has_dots3 (c :: c' :: c'' :: rest))
        with ((Ascii.eqb c "." && Ascii.eqb c' "." && Ascii.eqb c'' ".")
              || Files.has_dots3 (c' :: c'' :: rest)) in H3.
      now apply orb_false_iff in H3. }
    destruct (Ascii.eqb c "." && Ascii.eqb c' ".") eqn:Hcc.
    + rewrite has_dotdot_cons, replace_dotdot_hd.
      assert (H3'' : Files.has_dots3 rest = false).
      { destruct rest as [|c'' [|c3 rest]]; try reflexivity.
        change (Files.has_dots3 (c' :: c'' :: c3 :: rest))
          with ((Ascii.eqb c' "." && Ascii.eqb c'' "." && Ascii.eqb c3 ".")
                || Files.has_dots3 (c'' :: c3 :: rest)) in H3'.
        now apply orb_false_iff in H3'. }
      rewrite (IH rest) by (try lia; exact H3''). rewrite orb_false_r.
      destruct rest as [|c'' rest]; [reflexivity|].
      change (Files.has_dots3 (c :: c' :: c'' :: rest))
        with ((Ascii.eqb c "." && Ascii.eqb c' "." && Ascii.eqb c'' ".")
              || Files.has_dots3 (c' :: c'' :: rest)) in H3.
      apply orb_false_iff in H3. destruct H3 as [H3 _].
      rewrite Hcc in H3. simpl in *. now rewrite H3.
    + rewrite has_dotdot_cons, replace_dotdot_hd.
      rewrite (IH (c' :: rest)) by (simpl; try lia; exact H3').
      simpl. now rewrite Hcc.
Qed.

Lemma sub_unsafe_hd_dot (s : str) :
  hd_error (Files.sub_unsafe false s) = Some "."%char ->
  hd_error s = Some "."%char.
Proof.
  destruct s as [|c s]; [discriminate|]. simpl.
  destruct (Files.safe c); [trivial | discriminate].
Qed.

Lemma sub_unsafe_dotdot (in_run : bool) (s : str) :
  Files.has_dotdot (Files.sub_unsafe in_run s) = true ->
  Files.has_dotdot s = true.
Proof.
  revert in_run; induction s as [|c s IH]; intros in_run;
    [discriminate|].
  rewrite (has_dotdot_cons c s). simpl Files.sub_unsafe.
  destruct (Files.safe c).
  - rewrite has_dotdot_cons. intros H. apply orb_true_iff in H.
    destruct H as [H|H]; [|rewrite (IH false H); apply orb_true_r].
    destruct (hd_error (Files.sub_unsafe false s)) as [y|] eqn:Hy;
      [|discriminate].
    apply andb_true_iff in H. destruct H as [Hc Hyd].
    apply Ascii.eqb_eq in Hyd. subst y.
    rewrite (sub_unsafe_hd_dot s Hy), Hc. reflexivity.
  - destruct in_run.
    + intros H. rewrite (IH true H). apply orb_true_r.
    + rewrite has_dotdot_cons. intros H. apply orb_true_iff in H.
      destruct H as [H|H]; [|rewrite (IH true H); apply orb_true_r].
      destruct (hd_error _); discriminate H.
Qed.

Lemma has_dotdot_app_r (r q : str) :
  Files.has_dotdot r = true -> Files.has_dotdot (r ++ q) = true.
Proof.
  induction r as [|c r IH]; [discriminate|].
  rewrite has_dotdot_cons. simpl app. rewrite has_dotdot_cons.
  intros H. apply orb_true_iff in H. destruct H as [H|H].
  - destruct r as [|y r]; [discriminate H|]. simpl in *. now rewrite H.
  - rewrite (IH H). apply orb_true_r.
Qed.

Lemma has_dotdot_app_l (p r : str) :
  Files.has_dotdot r = true -> Files.has_dotdot (p ++ r) = true.
Proof.
  intros H. induction p as [|c p IH]; [exact H|].
  simpl app. rewrite has_dotdot_cons, IH. apply orb_true_r.
Qed.

(** X23. A name without three dots in a row comes out without two dots in
    a row, so with no [..] path segment.  (With three or more the guarantee
    is lost, since the occurrences replaced do not overlap.) *)
Theorem object_name_no_dotdot (name r : str) :
  Files.has_dots3 name = false ->
  Files.sanitize_object_name name = Returned r ->
  Files.has_dotdot r = false.
Proof.
  intros H3. unfold Files.sanitize_object_name.
  set (s := Files.sub_unsafe false (Files.replace_dotdot name)).
  destruct (strip_underscore_spec s) as (p & q & Hs & _).
  destruct (negb (nonempty (Files.strip_underscore s))); [discriminate|].
  intros [= <-].
  destruct (Files.has_dotdot (Files.strip_underscore s)) eqn:E;
    [|reflexivity].
  exfalso.
  assert (Hs' : Files.has_dotdot s = true).
  { rewrite Hs. apply has_dotdot_app_l. now apply has_dotdot_app_r. }
  apply sub_unsafe_dotdot in Hs'.
  rewrite (replace_dotdot_clean (length name) name (le_n _) H3) in Hs'.
  discriminate Hs'.
Qed.

Lemma object_name_no_dotdot_witness :
  Files.has_dotdot (lit "a.b/__c") = false.
Proof.
  apply (object_name_no_dotdot (lit "_a..b/ _c__") (lit "a.b/__c")).
  - reflexivity.
  - reflexivity.
Defined.

(** Three dots leave two. *)
Example object_name_three_dots :
  Files.sanitize_object_name (lit ".../etc/passwd")
  = Returned (lit "../etc/passwd").
Proof. reflexivity. Qed.

(* ================================================================== *)
(** ** Detection and rewriting together *)
(* ================================================================== *)

Lemma single_type_hits (txt k : str) (e : EntityHit) :
  In e (find_entities txt (Some [k])) -> entity_type e = k.
Proof.
  intros Hin. apply in_find_entities in Hin.
  destruct Hin as (kv & Hkv & He).
  unfold active_patterns in Hkv. simpl falsy in Hkv. cbv iota in Hkv.
  apply filter_In in Hkv. destruct Hkv as (_ & Hmem).
  apply mem_In in Hmem. destruct Hmem as [Hk|[]].
  pose proof (hits_of_type txt kv) as Hty.
  rewrite Forall_forall in Hty. rewrite Hk. now apply Hty.
Qed.

Lemma ordered_pairs_chain (l : list EntityHit) :
  (forall a b, In a l -> In b l -> entity_type a = entity_type b) ->
  ForallOrdPairs
    (fun a b => entity_type a = entity_type b -> (end_ a <= start b)%Z) l ->
  StronglySorted ends_before l.
Proof.
  intros Hsame H. induction H as [|a l Ha _ IH]; constructor.
  - apply IH. intros x y Hx Hy. apply Hsame; now right.
  - apply Forall_forall. intros b Hb.
    rewrite Forall_forall in Ha. apply (Ha b Hb).
    apply Hsame; [now left | now right].
Qed.

(** X24. Under an allow-list that names one entity type the detected spans
    never intersect, so the text both endpoints return is the reference
    reconstruction: what lies outside the spans is kept, character for
    character, and every span is replaced once. *)
Theorem single_type_offset_safe (txt k : str)
  (operator mask_char : str) (mask_len : Z) :
  non_overlapping (find_entities txt (Some [k]))
  /\ apply_sanitization txt (find_entities txt (Some [k]))
       operator mask_char mask_len
     = reference txt (find_entities txt (Some [k]))
         operator mask_char mask_len.
Proof.
  assert (Hchain : StronglySorted ends_before (find_entities txt (Some [k]))).
  { apply ordered_pairs_chain; [|apply find_entities_same_type].
    intros a b Ha Hb.
    now rewrite (single_type_hits txt k a Ha), (single_type_hits txt k b Hb). }
  split.
  - unfold non_overlapping.
    induction Hchain as [|a l _ IH Hall]; constructor; [|exact IH].
    eapply Forall_impl; [|exact Hall].
    unfold ends_before, intersects. intros b Hab [_ Hlt]. lia.
  - apply apply_sanitization_reference;
      [apply find_entities_in_text | exact Hchain].
Qed.

(* ================================================================== *)
(** ** Detection does not see letter case *)
(* ================================================================== *)

Lemma class_blind_spec (cls : list cset) (c : ascii) :
  class_blind cls = true ->
  in_class true cls (lower_char c) = in_class true cls c.
Proof.
  unfold class_blind. rewrite forallb_forall. intros H.
  specialize (H (nat_of_ascii c)).
  rewrite ascii_nat_embedding in H. apply eqb_prop, H.
  apply in_seq. pose proof (nat_ascii_bounded c). lia.
Qed.

Lemma is_word_lower (c : ascii) : is_word (lower_char c) = is_word c.
Proof. destruct c as [[] [] [] [] [] [] [] []]; reflexivity. Qed.

Lemma word_at_lower (s : str) (i : nat) :
  word_at (lower s) i = word_at s i.
Proof.
  unfold word_at, lower. rewrite nth_error_map.
  destruct (nth_error s i); [apply is_word_lower | reflexivity].
Qed.

Lemma at_boundary_lower (s : str) (pos : nat) :
  at_boundary (lower s) pos = at_boundary s pos.
Proof.
  unfold at_boundary. rewrite word_at_lower.
  destruct pos; [reflexivity|]. now rewrite word_at_lower.
Qed.

Lemma run_lower (cls : list cset) (cap : option nat) (s : str) :
  class_blind cls = true ->
  run true cls cap (lower s) = run true cls cap s.
Proof.
  intros Hb. revert cap; induction s as [|c s IH]; intros cap;
    [reflexivity|].
  simpl. rewrite (class_blind_spec cls c Hb).
  destruct cap as [[|h]|]; try reflexivity;
    destruct (in_class true cls c); try reflexivity; f_equal; apply IH.
Qed.

Lemma backtrack_ext (k k' : nat -> option nat) (lo n : nat) :
  (forall m, k m = k' m) -> backtrack k lo n = backtrack k' lo n.
Proof.
  intros Hk. induction n as [|n IH]; simpl; rewrite Hk.
  - reflexivity.
  - destruct (S n <? lo); [reflexivity|].
    destruct (k' (S n)); [reflexivity | exact IH].
Qed.

Lemma match_at_lower (p : pattern) (s : str) :
  pattern_blind p = true ->
  forall pos, match_at true p (lower s) pos = match_at true p s pos.
Proof.
  induction p as [|[|lo hi cls] rest IH]; intros Hb pos; simpl.
  - reflexivity.
  - rewrite at_boundary_lower, (IH Hb). reflexivity.
  - simpl in Hb. apply andb_true_iff in Hb. destruct Hb as [Hcls Hrest].
    unfold lower at 2. rewrite skipn_map. fold (lower (skipn pos s)).
    rewrite (run_lower cls hi _ Hcls).
    apply backtrack_ext. intros m. now apply IH.
Qed.

Lemma lower_length (s : str) : length (lower s) = length s.
Proof. apply length_map. Qed.

Lemma scan_lower (p : pattern) (s : str) (fuel : nat) :
  pattern_blind p = true ->
  forall pos, scan fuel true p (lower s) pos = scan fuel true p s pos.
Proof.
  intros Hb. induction fuel as [|fuel IH]; intros pos; [reflexivity|].
  simpl. rewrite lower_length, (match_at_lower p s Hb).
  destruct (length s <? pos); [reflexivity|].
  destruct (match_at true p s pos); now rewrite IH.
Qed.

Lemma slice_lower (s : str) (i j : Z) :
  slice (lower s) i j = lower (slice s i j).
Proof.
  unfold slice, len. rewrite lower_length. unfold lower.
  now rewrite skipn_map, firstn_map.
Qed.

Lemma hits_of_lower (txt : str) (kv : str * pattern) :
  pattern_blind (snd kv) = true ->
  hits_of (lower txt) kv = map (with_text lower) (hits_of txt kv).
Proof.
  intros Hb. unfold hits_of, finditer.
  rewrite lower_length, (scan_lower (snd kv) txt _ Hb), map_map.
  apply map_ext. intros m. unfold with_text. simpl.
  now rewrite slice_lower.
Qed.

Lemma candidates_lower (txt : str) (ps : list (str * pattern)) :
  Forall (fun kv => pattern_blind (snd kv) = true) ps ->
  candidates (lower txt) ps = map (with_text lower) (candidates txt ps).
Proof.
  unfold candidates. induction 1 as [|kv ps Hkv _ IH]; [reflexivity|].
  simpl. now rewrite map_app, IH, (hits_of_lower txt kv Hkv).
Qed.

(** Sorting by [start] goes through a change of the [text] fields. *)
Lemma sorted_with_text (f : str -> str) (l : list EntityHit) :
  Py.sorted start (map (with_text f) l)
  = map (with_text f) (Py.sorted start l).
Proof.
  induction l as [|e l IH]; [reflexivity|].
  simpl. rewrite IH. generalize (Py.sorted start l). clear IH.
  induction l0 as [|y l0 IH]; [reflexivity|].
  simpl. destruct (start e <=? start y)%Z; [reflexivity|].
  simpl. now rewrite IH.
Qed.

Lemma PATTERNS_blind :
  Forall (fun kv => pattern_blind (snd kv) = true) PATTERNS.
Proof. repeat constructor. Qed.


(* ================================================================== *)
(** ** rag-starter-svc *)
(* ================================================================== *)

Lemma cite_ranks (ctx : list RagStarter.Candidate) :
  forall i,
    map RagStarter.rank (RagStarter.cite i ctx)
    = map (fun k => (i + Z.of_nat k)%Z) (seq 0 (length ctx)).
Proof.
  induction ctx as [|c ctx IH]; intros i; [reflexivity|].
  simpl. rewrite IH, <- seq_shift, map_map. f_equal; [f_equal; lia|].
  apply map_ext. intros k. lia.
Qed.

